(** * Tournament lifecycle, registration, brackets, ranking and chat

    A shallow embedding of the tournament engine:
    - [models/Tournament.js]: the schema and the methods [registerTeam],
      [updateStatus], [generateBrackets] and the virtual [registrationOpen];
    - [routes/tournaments.js]: the handlers for creation, registration,
      unregistration, bracket generation and match results;
    - [routes/leaderboard.js]: the rank-with-neighbours query;
    - [routes/chat.js]: posting, system posting and deletion of messages.

    Conventions.  A [Date] is its number of milliseconds since the epoch, so
    the comparisons of the source are comparisons on [Z]; [new Date()] is the
    parameter [now] of every operation that reads the clock.  An [ObjectId]
    is the string its [toString()] yields, which is what the handlers compare.
    JavaScript numbers that hold counters and scores are integers of [Z].
    A handler is a function from the documents it loaded to either an [Error]
    or the documents it saved.  The documents a handler loads come from the
    store, so their fields passed the casts and the validators of the schema
    when they were saved; what a request brings is cast and validated where
    the handler or [save()] does it. *)

From Stdlib Require Import Ascii.
From stdpp Require Import base numbers list strings pretty sorting.

#[local] Open Scope Z_scope.

(** ** Data model *)

Definition ObjectId : Type := string.
Definition Date : Type := Z.

(** A reference field of a document: a slot that was never set reads
    [undefined], a slot set to [null] reads [null]. *)
Inductive Ref : Type :=
| Undefined
| Null
| Id (o : ObjectId).

Inductive Status : Type :=
| draft | registration | upcoming | live | completed | cancelled.

Inductive TeamStatus : Type :=
| registered | confirmed | eliminated | winner_team.

Inductive MatchStatus : Type :=
| pending | match_live | match_completed.

#[global] Instance Ref_eq_dec : EqDecision Ref.
Proof. solve_decision. Defined.
#[global] Instance Status_eq_dec : EqDecision Status.
Proof. solve_decision. Defined.
#[global] Instance TeamStatus_eq_dec : EqDecision TeamStatus.
Proof. solve_decision. Defined.
#[global] Instance MatchStatus_eq_dec : EqDecision MatchStatus.
Proof. solve_decision. Defined.

Record Player : Type := mkPlayer {
  userId : ObjectId;
  username : string;
  role : string
}.

Record Team : Type := mkTeam {
  teamId : Ref;
  players : list Player;
  registeredAt : Date;
  team_status : TeamStatus;
  team_score : Z;
  placement : option Z
}.

Record Score : Type := mkScore {
  team1Score : Z;
  team2Score : Z
}.

Record Match : Type := mkMatch {
  matchId : string;
  team1 : Ref;
  team2 : Ref;
  winner : Ref;
  score : option Score;
  match_status : MatchStatus;
  scheduledTime : option Date;
  completedAt : option Date
}.

Record Round : Type := mkRound {
  round : nat;
  matches : list Match
}.

Record Dates : Type := mkDates {
  registrationStart : Date;
  registrationEnd : Date;
  tournamentStart : Date;
  tournamentEnd : option Date
}.

Record Participants : Type := mkParticipants {
  maxTeams : Z;
  currentTeams : Z;
  teams : list Team
}.

Record ChatMessage : Type := mkChatMessage {
  msg_id : ObjectId;
  msg_userId : Ref;
  msg_username : string;
  message : string;
  timestamp : Date;
  isSystemMessage : bool
}.

Record Statistics : Type := mkStatistics {
  totalRegistrations : Z;
  totalViews : Z
}.

Record Tournament : Type := mkTournament {
  t_id : ObjectId;
  name : string;
  status : Status;
  dates : Dates;
  participants : Participants;
  brackets : list Round;
  organizer : ObjectId;
  chat : list ChatMessage;
  statistics : Statistics
}.

(** The entry a user keeps of a tournament it registered for. *)
Record UserTournament : Type := mkUserTournament {
  tournamentId : ObjectId;
  ut_registeredAt : Date;
  ut_status : string
}.

Record GameStat : Type := mkGameStat {
  game : string;
  gs_score : Z
}.

Record User : Type := mkUser {
  u_id : ObjectId;
  u_username : string;
  isActive : bool;
  totalScore : Z;
  gameStats : list GameStat;
  tournaments : list UserTournament
}.

(** The outcomes a handler reports, by the message it sends:
    - [Conflict]: 400 'Tournament is full';
    - [RegistrationClosed]: 400 'Registration is not open';
    - [DuplicateRegistration]: 400 'Already registered for this tournament';
    - [TournamentLocked]: 400 'Cannot unregister from active or completed
      tournament';
    - [NotRegistered]: 400 'Not registered for this tournament';
    - [NotFound]: 404; [Forbidden]: 403; [ValidationFailed]: 400
      'Validation failed';
    - [ServerError]: 500 'Server error', the answer of the [catch] of a
      handler when [save()] rejects. *)
Inductive Error : Type :=
| Conflict
| RegistrationClosed
| DuplicateRegistration
| TournamentLocked
| NotRegistered
| NotFound
| Forbidden
| ValidationFailed
| ServerError.

#[global] Instance Error_eq_dec : EqDecision Error.
Proof. solve_decision. Defined.

Definition Result (A : Type) : Type := Error + A.

(** Field assignments, [this.f = v]. *)
Definition set_status (s : Status) (t : Tournament) : Tournament :=
  mkTournament (t_id t) (name t) s (dates t) (participants t) (brackets t)
    (organizer t) (chat t) (statistics t).

Definition set_participants (p : Participants) (t : Tournament) : Tournament :=
  mkTournament (t_id t) (name t) (status t) (dates t) p (brackets t)
    (organizer t) (chat t) (statistics t).

Definition set_brackets (b : list Round) (t : Tournament) : Tournament :=
  mkTournament (t_id t) (name t) (status t) (dates t) (participants t) b
    (organizer t) (chat t) (statistics t).

Definition set_chat (c : list ChatMessage) (t : Tournament) : Tournament :=
  mkTournament (t_id t) (name t) (status t) (dates t) (participants t)
    (brackets t) (organizer t) c (statistics t).

Definition set_statistics (s : Statistics) (t : Tournament) : Tournament :=
  mkTournament (t_id t) (name t) (status t) (dates t) (participants t)
    (brackets t) (organizer t) (chat t) s.

(** ** Lifecycle: [updateStatus] and [registrationOpen] *)

(** [!this.dates.tournamentEnd || now <= this.dates.tournamentEnd]: a Date
    object is truthy, so the first disjunct holds exactly when no end is
    set. *)
Definition end_unset_or_not_after (now : Date) (e : option Date) : bool :=
  match e with
  | None => true
  | Some e => now <=? e
  end.

(** [this.dates.tournamentEnd && now > this.dates.tournamentEnd]. *)
Definition end_set_and_after (now : Date) (e : option Date) : bool :=
  match e with
  | None => false
  | Some e => now >? e
  end.

(** The method [updateStatus]: an if/else-if chain without a final [else];
    when no branch fires, the status is left as it was. *)
Definition updateStatus (now : Date) (t : Tournament) : Tournament :=
  let d := dates t in
  if now <? registrationStart d then set_status draft t
  else if (now >=? registrationStart d) && (now <=? registrationEnd d)
    then set_status registration t
  else if (now >? registrationEnd d) && (now <? tournamentStart d)
    then set_status upcoming t
  else if (now >=? tournamentStart d)
          && end_unset_or_not_after now (tournamentEnd d)
    then set_status live t
  else if end_set_and_after now (tournamentEnd d)
    then set_status completed t
  else t.

(** The virtual [registrationOpen]: the clock is inside the registration
    window and the stored status is [registration]. *)
Definition registrationOpen (now : Date) (t : Tournament) : bool :=
  (now >=? registrationStart (dates t))
  && (now <=? registrationEnd (dates t))
  && bool_decide (status t = registration).

(** The schedule order the data model asks of a tournament. *)
Definition schedule_ordered (d : Dates) : Prop :=
  registrationStart d ≤ registrationEnd d
  ∧ registrationEnd d ≤ tournamentStart d
  ∧ match tournamentEnd d with
    | None => True
    | Some e => tournamentStart d ≤ e
    end.

(** ** Creation: [POST /api/tournaments] *)

(** The request body, [req.body].  The validators of the handler ask for
    [name], [game], [format], [prizePool.amount], [participants.maxTeams]
    and the three dates, of which the name, the capacity and the dates are
    kept here; the handler copies every field of the body into the document
    ([...req.body]), so a client may also send the fields the schema would
    otherwise fill with a default.  Such a field is [None] when the body
    does not carry it. *)
Record TournamentBody : Type := mkTournamentBody {
  b_id : option ObjectId;
  b_name : string;
  b_status : option Status;
  b_dates : Dates;
  b_maxTeams : Z;
  b_currentTeams : option Z;
  b_teams : option (list Team);
  b_brackets : option (list Round);
  b_chat : option (list ChatMessage);
  b_totalRegistrations : option Z;
  b_totalViews : option Z
}.

(** A body that carries the validated fields and nothing else. *)
Definition plain_body (n : string) (d : Dates) (maxTeams : Z)
  : TournamentBody :=
  mkTournamentBody None n None d maxTeams None None None None None None.

(** [String.prototype.trim], on strings of one-byte characters: the white
    space at both ends goes. *)
Fixpoint trimStart (s : string) : string :=
  match s with
  | String c s' => if Ascii.is_space c then trimStart s' else s
  | EmptyString => EmptyString
  end.

Definition trim (s : string) : string :=
  String.rev (trimStart (String.rev (trimStart s))).

(** The document [new Tournament(tournamentData)] builds from
    [{...req.body, organizer: {...}}]: each field is the one of the body, or
    its schema default when the body has none (status [draft], [currentTeams]
    0, empty arrays, counters at 0); the name is trimmed ([trim: true]); the
    organizer is the caller, whatever the body says.  [newId] is the
    identifier the store gives a document that brings none. *)
Definition newTournament (newId : ObjectId) (b : TournamentBody) (u : User)
  : Tournament :=
  {| t_id := default newId (b_id b);
     name := trim (b_name b);
     status := default draft (b_status b);
     dates := b_dates b;
     participants :=
       mkParticipants (b_maxTeams b) (default 0 (b_currentTeams b))
         (default [] (b_teams b));
     brackets := default [] (b_brackets b);
     organizer := u_id u;
     chat := default [] (b_chat b);
     statistics :=
       mkStatistics (default 0 (b_totalRegistrations b))
         (default 0 (b_totalViews b)) |}.

(** The validators of the schema that [save()] runs on the fields kept
    here: the name is required, so not empty, and has at most 100
    characters. *)
Definition valid_document (t : Tournament) : bool :=
  negb (bool_decide (name t = ""))
  && bool_decide (String.length (name t) ≤ 100)%nat.

(** The handler: the validators of the route on the body, then the document,
    [updateStatus()] and [save()], whose rejection the [catch] answers with
    500. *)
Definition createTournament (now : Date) (newId : ObjectId)
    (b : TournamentBody) (u : User) : Result Tournament :=
  if bool_decide (b_name b = "") || (b_maxTeams b <? 2) then inl ValidationFailed
  else
    let t := updateStatus now (newTournament newId b u) in
    if valid_document t then inr t else inl ServerError.

(** ** Registration: [registerTeam] and [POST /:id/register] *)

(** The method [registerTeam]; each [throw] is the error the handler's
    [catch] turns into a 400 response. *)
Definition registerTeam (now : Date) (teamData : Team) (t : Tournament)
  : Result Tournament :=
  let p := participants t in
  if currentTeams p >=? maxTeams p then inl Conflict
  else if negb (registrationOpen now t) then inl RegistrationClosed
  else
    inr (set_statistics
           (mkStatistics (totalRegistrations (statistics t) + 1)
                         (totalViews (statistics t)))
           (set_participants
              (mkParticipants (maxTeams p) (currentTeams p + 1)
                              (teams p ++ [teamData]))
              t)).

(** [team.players.some(player => player.userId.toString() === uid)]. *)
Definition has_player (uid : ObjectId) (team : Team) : bool :=
  existsb (λ p, bool_decide (userId p = uid)) (players team).

Definition alreadyRegistered (t : Tournament) (u : User) : bool :=
  existsb (has_player (u_id u)) (teams (participants t)).

(** The solo team the handler builds for the caller. *)
Definition teamData (now : Date) (u : User) : Team :=
  {| teamId := Id (u_id u);
     players := [mkPlayer (u_id u) (u_username u) "player"];
     registeredAt := now;
     team_status := registered;
     team_score := 0;
     placement := None |}.

Definition push_tournament (e : UserTournament) (u : User) : User :=
  mkUser (u_id u) (u_username u) (isActive u) (totalScore u) (gameStats u)
    (tournaments u ++ [e]).

Record RegisterResponse : Type := mkRegisterResponse {
  resp_currentTeams : Z;
  resp_maxTeams : Z
}.

(** The handler, from the loaded tournament and user to the saved ones and
    the body of the response. *)
Definition register (now : Date) (t : Tournament) (u : User)
  : Result (Tournament * User * RegisterResponse) :=
  if alreadyRegistered t u then inl DuplicateRegistration
  else
    match registerTeam now (teamData now u) t with
    | inl e => inl e
    | inr t' =>
        inr (t',
             push_tournament (mkUserTournament (t_id t') now "registered") u,
             mkRegisterResponse (currentTeams (participants t'))
                                (maxTeams (participants t')))
    end.

(** ** Unregistration: [DELETE /:id/unregister] *)

(** [Array.prototype.findIndex], with [None] for -1. *)
Fixpoint findIndex {A : Type} (f : A → bool) (l : list A) : option nat :=
  match l with
  | [] => None
  | x :: l' => if f x then Some O else S <$> findIndex f l'
  end.

Definition filter_tournaments (tid : ObjectId) (u : User) : User :=
  mkUser (u_id u) (u_username u) (isActive u) (totalScore u) (gameStats u)
    (filter (λ e, tournamentId e ≠ tid) (tournaments u)).

Definition unregister (t : Tournament) (u : User)
  : Result (Tournament * User) :=
  if bool_decide (status t = live) || bool_decide (status t = completed)
  then inl TournamentLocked
  else
    match findIndex (has_player (u_id u)) (teams (participants t)) with
    | None => inl NotRegistered
    | Some teamIndex =>
        let p := participants t in
        inr (set_participants
               (mkParticipants (maxTeams p) (currentTeams p - 1)
                               (delete teamIndex (teams p)))
               t,
             filter_tournaments (t_id t) u)
    end.

(** The roster invariant of the data model. *)
Definition roster_inv (t : Tournament) : Prop :=
  0 ≤ currentTeams (participants t)
  ∧ currentTeams (participants t) ≤ maxTeams (participants t)
  ∧ currentTeams (participants t) = Z.of_nat (length (teams (participants t))).

(** The tournament in the store after a handler ran: the saved one, or the
    loaded one when the handler failed before saving. *)
Definition saved {A : Type} (proj : A → Tournament) (t : Tournament)
    (r : Result A) : Tournament :=
  match r with
  | inl _ => t
  | inr a => proj a
  end.

(** ** Brackets: [generateBrackets] and [POST /:id/generate-brackets] *)

(** The value of [Math.ceil(Math.log2(numTeams))] on an array length: minus
    infinity at 0, and otherwise the least [k] with [numTeams ≤ 2^k]
    ([Math.log2] is exact on powers of two). *)
Inductive JsNum : Type :=
| NegInfinity
| Num (k : nat).

Definition ceil_log2 (numTeams : nat) : JsNum :=
  match numTeams with
  | O => NegInfinity
  | _ => Num (Nat.log2_up numTeams)
  end.

(** [x <= 0] on such a value. *)
Definition le_zero (x : JsNum) : bool :=
  match x with
  | NegInfinity => true
  | Num k => bool_decide (k = O)
  end.

(** [teams[k]?.teamId]. *)
Definition teamId_at (ts : list Team) (k : nat) : Ref :=
  match ts !! k with
  | None => Undefined
  | Some tm => teamId tm
  end.

(** The object pushed for match [i] of round [r]. *)
Definition bracket_match (ts : list Team) (r i : nat) : Match :=
  {| matchId := "R" +:+ pretty r +:+ "M" +:+ pretty (i + 1)%nat;
     team1 := if bool_decide (r = 1%nat) then teamId_at ts (i * 2) else Null;
     team2 := if bool_decide (r = 1%nat) then teamId_at ts (i * 2 + 1) else Null;
     winner := Undefined;
     score := None;
     match_status := pending;
     scheduledTime := None;
     completedAt := None |}.

(** The body of the outer loop for round [r] of [rounds]. *)
Definition bracket_round (ts : list Team) (rounds r : nat) : Round :=
  let teamsInRound := (2 ^ (rounds - r + 1))%nat in
  {| round := r;
     matches := bracket_match ts r <$> seq 0 (teamsInRound / 2) |}.

Definition confirmed_teams (t : Tournament) : list Team :=
  filter (λ tm, team_status tm = confirmed) (teams (participants t)).

(** The outer loop [for (let round = 1; round <= rounds; round++)]: no
    iteration when [rounds] is minus infinity, rounds 1 to [rounds]
    otherwise. *)
Definition build_brackets (ts : list Team) : list Round :=
  match ceil_log2 (length ts) with
  | NegInfinity => []
  | Num rounds => bracket_round ts rounds <$> seq 1 rounds
  end.

Definition generateBrackets (t : Tournament) : Tournament :=
  set_brackets (build_brackets (confirmed_teams t)) t.

Definition generate_brackets (caller : ObjectId) (t : Tournament)
  : Result Tournament :=
  if bool_decide (organizer t ≠ caller) then inl Forbidden
  else inr (generateBrackets t).

Definition all_matches (bs : list Round) : list Match :=
  bs ≫= matches.

(** ** Match results: [PUT /:id/match/:matchId] *)

(** The request body as the validators see it: [winner] is the submitted
    value, a score field is [None] when it is missing or not numeric. *)
Record ResultBody : Type := mkResultBody {
  b_winner : string;
  b_team1Score : option Z;
  b_team2Score : option Z
}.

(** The path [winner] of a match has the type ObjectId, so the value assigned
    to it is cast: a string of 24 hexadecimal digits is the identifier it
    spells, which reads back in lower case; any other string is no
    identifier, and [save()] rejects the document. *)
Definition is_hex_digit (c : ascii) : bool :=
  let n := nat_of_ascii c in
  ((48 <=? n) && (n <=? 57) || (65 <=? n) && (n <=? 70)
   || (97 <=? n) && (n <=? 102))%nat.

Definition lower_hex (c : ascii) : ascii :=
  let n := nat_of_ascii c in
  if ((65 <=? n) && (n <=? 70))%nat then ascii_of_nat (n + 32) else c.

Definition castObjectId (s : string) : option ObjectId :=
  if (String.length s =? 24)%nat
     && forallb is_hex_digit (String.list_ascii_of_string s)
  then Some (String.string_of_list_ascii
               (lower_hex <$> String.list_ascii_of_string s))
  else None.

(** The four assignments to the match that was found; [w] is the winner
    after the cast. *)
Definition complete_match (now : Date) (w : ObjectId) (sc : Score) (m : Match)
  : Match :=
  {| matchId := matchId m;
     team1 := team1 m;
     team2 := team2 m;
     winner := Id w;
     score := Some sc;
     match_status := match_completed;
     scheduledTime := scheduledTime m;
     completedAt := Some now |}.

(** [bracket.matches.find(m => m.matchId === mid)] followed by the update in
    place of the match found: [None] when no match of the round has the id. *)
Fixpoint update_first_match (mid : string) (f : Match → Match)
    (ms : list Match) : option (list Match) :=
  match ms with
  | [] => None
  | m :: ms' =>
      if bool_decide (matchId m = mid) then Some (f m :: ms')
      else cons m <$> update_first_match mid f ms'
  end.

(** The loop over the rounds, left by [break] at the first round that holds
    the match: [None] when [matchFound] stays false. *)
Fixpoint update_brackets (mid : string) (f : Match → Match)
    (bs : list Round) : option (list Round) :=
  match bs with
  | [] => None
  | b :: bs' =>
      match update_first_match mid f (matches b) with
      | Some ms' => Some (mkRound (round b) ms' :: bs')
      | None => cons b <$> update_brackets mid f bs'
      end
  end.

(** The handler.  The search for the match does not depend on the values
    assigned, so it is made here with the identity: when no round holds the
    match the answer is 404 before anything is saved.  Otherwise [save()]
    runs: it rejects a winner that is no identifier, which the [catch] of
    the handler answers with 500, and stores the update when the winner is
    one. *)
Definition recordResult (now : Date) (caller : ObjectId) (mid : string)
    (body : ResultBody) (t : Tournament) : Result Tournament :=
  match b_team1Score body, b_team2Score body with
  | Some s1, Some s2 =>
      if bool_decide (b_winner body = "") then inl ValidationFailed
      else if bool_decide (organizer t ≠ caller) then inl Forbidden
      else
        match update_brackets mid id (brackets t) with
        | None => inl NotFound
        | Some _ =>
            match castObjectId (b_winner body) with
            | None => inl ServerError
            | Some w =>
                match update_brackets mid
                        (complete_match now w (mkScore s1 s2))
                        (brackets t) with
                | None => inl NotFound
                | Some bs => inr (set_brackets bs t)
                end
            end
        end
  | _, _ => inl ValidationFailed
  end.

(** ** Chat: [routes/chat.js] *)

(** [POST /tournament/:tournamentId]; [msg] is the message after the [trim]
    of the validator chain, [newId] the identifier the store gives the new
    entry of the array. *)
Definition postChatMessage (now : Date) (newId : ObjectId) (u : User)
    (msg : string) (t : Tournament) : Result Tournament :=
  if bool_decide (String.length msg < 1)%nat
     || bool_decide (500 < String.length msg)%nat
  then inl ValidationFailed
  else
    let isRegistered := existsb (has_player (u_id u)) (teams (participants t)) in
    let isOrganizer := bool_decide (organizer t = u_id u) in
    if negb isRegistered && negb isOrganizer then inl Forbidden
    else
      inr (set_chat
             (chat t ++ [mkChatMessage newId (Id (u_id u)) (u_username u) msg
                           now false])
             t).

(** [POST /tournament/:tournamentId/system]. *)
Definition postSystemMessage (now : Date) (newId : ObjectId)
    (caller : ObjectId) (msg : string) (t : Tournament) : Result Tournament :=
  if bool_decide (String.length msg < 1)%nat
     || bool_decide (500 < String.length msg)%nat
  then inl ValidationFailed
  else if bool_decide (organizer t ≠ caller) then inl Forbidden
  else
    inr (set_chat
           (chat t ++ [mkChatMessage newId Null "System" msg now true])
           t).

(** [message.userId && message.userId.toString() === caller]. *)
Definition isAuthor (caller : ObjectId) (m : ChatMessage) : bool :=
  match msg_userId m with
  | Id o => bool_decide (o = caller)
  | _ => false
  end.

(** [DELETE /tournament/:tournamentId/message/:messageId].  The index
    [findIndex] returns is within the array, so [tournament.chat[messageIndex]]
    is a message; the [None] case of the lookup is never taken. *)
Definition deleteChatMessage (caller : ObjectId) (messageId : ObjectId)
    (t : Tournament) : Result Tournament :=
  match findIndex (λ m, bool_decide (msg_id m = messageId)) (chat t) with
  | None => inl NotFound
  | Some messageIndex =>
      match chat t !! messageIndex with
      | None => inl NotFound
      | Some m =>
          if negb (isAuthor caller m) && negb (bool_decide (organizer t = caller))
          then inl Forbidden
          else inr (set_chat (delete messageIndex (chat t)) t)
      end
  end.

(** ** The store seen from one tournament *)

(** The requests that load and save a tournament. *)
Inductive Op : Type :=
| OpGet (now : Date)
| OpRegister (now : Date) (u : User)
| OpUnregister (u : User)
| OpGenerateBrackets (caller : ObjectId)
| OpRecordResult (now : Date) (caller : ObjectId) (mid : string)
    (body : ResultBody)
| OpPostChat (now : Date) (newId : ObjectId) (u : User) (msg : string)
| OpPostSystem (now : Date) (newId : ObjectId) (caller : ObjectId)
    (msg : string)
| OpDeleteChat (caller : ObjectId) (messageId : ObjectId).

(** The tournament in the store after a request. *)
Definition step (op : Op) (t : Tournament) : Tournament :=
  match op with
  | OpGet now => updateStatus now t
  | OpRegister now u => saved (λ r, r.1.1) t (register now t u)
  | OpUnregister u => saved fst t (unregister t u)
  | OpGenerateBrackets caller => saved id t (generate_brackets caller t)
  | OpRecordResult now caller mid body =>
      saved id t (recordResult now caller mid body t)
  | OpPostChat now newId u msg =>
      saved id t (postChatMessage now newId u msg t)
  | OpPostSystem now newId caller msg =>
      saved id t (postSystemMessage now newId caller msg t)
  | OpDeleteChat caller messageId =>
      saved id t (deleteChatMessage caller messageId t)
  end.

Definition run (ops : list Op) (t : Tournament) : Tournament :=
  foldl (λ t op, step op t) t ops.

Definition is_delete (op : Op) : bool :=
  match op with
  | OpDeleteChat _ _ => true
  | _ => false
  end.

Definition is_unregister (op : Op) : bool :=
  match op with
  | OpUnregister _ => true
  | _ => false
  end.

(** ** Ranking: [GET /api/leaderboard/user/:userId/rank] *)

(** [game && game !== 'overall']. *)
Definition game_scope (g : option string) : option string :=
  match g with
  | Some g => if bool_decide (g = "") || bool_decide (g = "overall")
              then None else Some g
  | None => None
  end.

(** [user.gameStats.find(stat => stat.game === game)?.score || 0]. *)
Definition game_score (g : string) (u : User) : Z :=
  match List.find (λ s, bool_decide (game s = g)) (gameStats u) with
  | Some s => gs_score s
  | None => 0
  end.

(** The filter of [countDocuments].  On the array [gameStats] the two
    conditions ['gameStats.game': g] and ['gameStats.score': {$gt: s}] each
    ask for some element of the array, not for one element meeting both. *)
Definition rankQuery (g : option string) (userScore : Z) (u : User) : bool :=
  match g with
  | Some g =>
      isActive u
      && existsb (λ s, bool_decide (game s = g)) (gameStats u)
      && existsb (λ s, gs_score s >? userScore) (gameStats u)
  | None => isActive u && (totalScore u >? userScore)
  end.

(** A row of the aggregation: the user and, after [$unwind], the element of
    [gameStats] the row stands for. *)
Record Row : Type := mkRow {
  row_user : User;
  row_stat : option GameStat
}.

Definition row_key (r : Row) : Z :=
  match row_stat r with
  | Some s => gs_score s
  | None => totalScore (row_user r)
  end.

(** [$sort] with key descending.  The store does not say in which order it
    returns rows of equal key; here they keep the order of the collection. *)
Fixpoint insert_desc (x : Row) (l : list Row) : list Row :=
  match l with
  | [] => [x]
  | y :: l' => if row_key x <? row_key y then y :: insert_desc x l'
               else x :: y :: l'
  end.

Definition sort_desc (l : list Row) : list Row :=
  foldr insert_desc [] l.

(** [$match] on the active flag, then either [$unwind] and [$match] on the
    game, or nothing, then [$sort]. *)
Definition sorted_scope (g : option string) (users : list User) : list Row :=
  let active := List.filter isActive users in
  match g with
  | Some g =>
      sort_desc
        (List.filter (λ r, match row_stat r with
                           | Some s => bool_decide (game s = g)
                           | None => false
                           end)
           (active ≫= λ u, (λ s, mkRow u (Some s)) <$> gameStats u))
  | None => sort_desc ((λ u, mkRow u None) <$> active)
  end.

Record RankedPlayer : Type := mkRankedPlayer {
  player : Row;
  rank : Z;
  isCurrentUser : bool
}.

Record RankResponse : Type := mkRankResponse {
  userRank : Z;
  nearbyPlayers : list RankedPlayer
}.

(** [array.map((x, index) => f x index)]. *)
Definition mapi {A B : Type} (f : A → nat → B) (l : list A) : list B :=
  (λ p, f p.2 p.1) <$> zip (seq 0 (length l)) l.

Definition getUserRank (users : list User) (uid : ObjectId)
    (g : option string) : Result RankResponse :=
  match List.find (λ u, bool_decide (u_id u = uid)) users with
  | None => inl NotFound
  | Some user =>
      let scope := game_scope g in
      let userScore :=
        match scope with
        | Some g => game_score g user
        | None => totalScore user
        end in
      let usersAbove :=
        Z.of_nat (length (List.filter (rankQuery scope userScore) users)) in
      let userRank := usersAbove + 1 in
      let nearby :=
        take 11 (drop (Z.to_nat (Z.max 0 (userRank - 6)))
                      (sorted_scope scope users)) in
      inr (mkRankResponse userRank
             (mapi (λ p index,
                      mkRankedPlayer p
                        (Z.max 1 (userRank - 5) + Z.of_nat index)
                        (bool_decide (u_id (row_user p) = uid)))
                   nearby))
  end.

(** ** Decimal strings *)

(** The characters a number prints with in a template literal. *)
Definition is_digit (c : ascii) : bool :=
  bool_decide (c ∈ ["0"; "1"; "2"; "3"; "4"; "5"; "6"; "7"; "8"; "9"]%char).

Fixpoint all_digits (s : string) : bool :=
  match s with
  | EmptyString => true
  | String c s' => is_digit c && all_digits s'
  end.

(** ** Further virtuals and handlers *)

(** The virtual [slotsRemaining]. *)
Definition slotsRemaining (t : Tournament) : Z :=
  maxTeams (participants t) - currentTeams (participants t).

(** The place of a status in the lifecycle, to compare two of them. *)
Definition status_rank (s : Status) : nat :=
  match s with
  | draft => 0
  | registration => 1
  | upcoming => 2
  | live => 3
  | completed => 4
  | cancelled => 5
  end.

(** The identifiers of the players of all roster entries, in roster order. *)
Definition roster_player_ids (t : Tournament) : list ObjectId :=
  teams (participants t) ≫= λ tm, userId <$> players tm.

(** *** [GET /api/chat/tournament/:tournamentId] *)

(** [Array.prototype.slice(start, end)] on integers: a negative index counts
    from the end of the array, both are clamped to the array, and nothing is
    returned when the end is not after the start. *)
Definition js_slice {A : Type} (start stop : Z) (l : list A) : list A :=
  let len := Z.of_nat (length l) in
  let k := if start <? 0 then Z.max (len + start) 0 else Z.min start len in
  let final := if stop <? 0 then Z.max (len + stop) 0 else Z.min stop len in
  take (Z.to_nat (final - k)) (drop (Z.to_nat k) l).

(** [Math.ceil(a / b)] as it reaches the JSON response: [null] when the
    quotient is not a finite number. *)
Definition ceil_div (a b : Z) : option Z :=
  if b =? 0 then None else Some (- ((- a) `div` b)).

Record ChatPage : Type := mkChatPage {
  cp_messages : list ChatMessage;
  cp_current : Z;
  cp_total : option Z;
  cp_hasMore : bool
}.

(** The handler, for integer values of the query parameters [limit] and
    [page]; [None] is a parameter that was not given. *)
Definition getChatMessages (limit page : option Z) (t : Tournament)
  : ChatPage :=
  let limit := default 50 limit in
  let page := default 1 page in
  let totalMessages := Z.of_nat (length (chat t)) in
  let startIndex := Z.max 0 (totalMessages - page * limit) in
  let endIndex := totalMessages - (page - 1) * limit in
  {| cp_messages := reverse (js_slice startIndex endIndex (chat t));
     cp_current := page;
     cp_total := ceil_div totalMessages limit;
     cp_hasMore := startIndex >? 0 |}.

(** *** [GET /api/chat/tournament/:tournamentId/online] *)

(** A user document as [populate] puts it in the place of [player.userId],
    with the fields the handler selects. *)
Record PopulatedUser : Type := mkPopulatedUser {
  pu_id : ObjectId;
  pu_username : string;
  pu_displayName : option string;
  pu_avatar : option string;
  pu_lastLogin : option Date
}.

Record OnlineUser : Type := mkOnlineUser {
  ou_id : ObjectId;
  ou_username : string;
  ou_displayName : string;
  ou_avatar : option string
}.

(** [profile?.displayName || username]: an empty name is falsy. *)
Definition display_name (u : PopulatedUser) : string :=
  match pu_displayName u with
  | Some d => if bool_decide (d = "") then pu_username u else d
  | None => pu_username u
  end.

(** The test of the inner [forEach] and the object it pushes; a player whose
    user no longer exists is populated with [null]. *)
Definition online_entry (fiveMinutesAgo : Date) (p : option PopulatedUser)
  : list OnlineUser :=
  match p with
  | Some u =>
      match pu_lastLogin u with
      | Some l =>
          if l >? fiveMinutesAgo
          then [mkOnlineUser (pu_id u) (pu_username u) (display_name u)
                  (pu_avatar u)]
          else []
      | None => []
      end
  | None => []
  end.

(** [self.filter((x, index) => keep x index)]. *)
Fixpoint filteri_from {A : Type} (keep : A → nat → bool) (index : nat)
    (l : list A) : list A :=
  match l with
  | [] => []
  | x :: l' =>
      if keep x index then x :: filteri_from keep (S index) l'
      else filteri_from keep (S index) l'
  end.

Definition filteri {A : Type} (keep : A → nat → bool) (l : list A) : list A :=
  filteri_from keep 0 l.

(** [users.filter((user, index, self) =>
       index === self.findIndex(u => u.id.toString() === user.id.toString()))]. *)
Definition uniqueOnlineUsers (l : list OnlineUser) : list OnlineUser :=
  filteri (λ user index,
             bool_decide
               (findIndex (λ u, bool_decide (ou_id u = ou_id user)) l
                = Some index))
          l.

(** The handler on the populated teams, each the list of its players. *)
Definition getOnlineUsers (now : Date)
    (populated : list (list (option PopulatedUser))) : list OnlineUser * nat :=
  let fiveMinutesAgo := now - 5 * 60 * 1000 in
  let onlineUsers := populated ≫= λ team, team ≫= online_entry fiveMinutesAgo in
  let unique := uniqueOnlineUsers onlineUsers in
  (unique, length unique).

(** *** [GET /api/leaderboard/game/:game] and [POST /api/leaderboard/update-ranks] *)

Record LeaderboardRow : Type := mkLeaderboardRow {
  lb_row : Row;
  lb_rank : Z
}.

Record Pagination : Type := mkPagination {
  pg_current : Z;
  pg_total : option Z;
  pg_hasNext : bool;
  pg_hasPrev : bool
}.

(** The filter [matchFilter] of a request without [region]: the user is
    active and some element of its [gameStats] is for the game. *)
Definition matchFilter (g : string) (u : User) : bool :=
  isActive u && existsb (λ s, bool_decide (game s = g)) (gameStats u).

(** The ranked rows and the pagination block of the response to a request
    without [region], for integer [page] and [limit]; the [winRate] of a
    row, a decimal string made from a floating-point quotient, is left out.
    The store refuses a negative [$skip] and a [$limit] that is not
    positive; the handler then answers 500, here [None]. *)
Definition getGameLeaderboard (users : list User) (g : string)
    (limit page : option Z) : option (list LeaderboardRow * Pagination) :=
  let limit := default 50 limit in
  let page := default 1 page in
  if ((page - 1) * limit <? 0) || (limit <=? 0) then None
  else
    let leaderboard :=
      take (Z.to_nat limit)
        (drop (Z.to_nat ((page - 1) * limit)) (sorted_scope (Some g) users)) in
    let totalUsers := Z.of_nat (length (List.filter (matchFilter g) users)) in
    Some (mapi (λ r index,
                  mkLeaderboardRow r ((page - 1) * limit + Z.of_nat index + 1))
               leaderboard,
          {| pg_current := page;
             pg_total := ceil_div totalUsers limit;
             pg_hasNext := page * limit <? totalUsers;
             pg_hasPrev := page >? 1 |}).

(** The first [bulkWrite] of the rank update: for each active user, in
    descending order of total score, its identifier and the rank to store. *)
Definition overallRankOps (users : list User) : list (ObjectId * Z) :=
  mapi (λ r index, (u_id (row_user r), Z.of_nat index + 1))
       (sorted_scope None users).

(** The [bulkWrite] of one game: identifier, game and rank of each row. *)
Definition gameRankOps (users : list User) (g : string)
  : list (ObjectId * string * Z) :=
  mapi (λ r index, (u_id (row_user r), g, Z.of_nat index + 1))
       (sorted_scope (Some g) users).

(** *** Achievements: [addAchievement] *)

Record Achievement : Type := mkAchievement {
  ach_id : string;
  ach_name : string;
  ach_description : string;
  ach_icon : string;
  ach_category : string;
  ach_unlockedAt : Date
}.

(** The method [addAchievement] on the array [this.achievements]. *)
Definition addAchievement (a : Achievement) (l : list Achievement)
  : list Achievement :=
  if existsb (λ ach, bool_decide (ach_id ach = ach_id a)) l then l
  else l ++ [a].


(** ** Sample documents *)

Definition alice : User := mkUser "a" "alice" true 0 [] [].

(** Registration from 0 to 10, start at 20, no end. *)
Definition open_dates : Dates := mkDates 0 10 20 None.

(** Registration closes at the instant the tournament starts. *)
Definition tight_dates : Dates := mkDates 0 5 5 None.

Definition sample (s : Status) (d : Dates) : Tournament :=
  {| t_id := "t";
     name := "cup";
     status := s;
     dates := d;
     participants := mkParticipants 2 0 [];
     brackets := [];
     organizer := "o";
     chat := [];
     statistics := mkStatistics 0 0 |}.

Definition olga : User := mkUser "o" "olga" true 0 [] [].



(** A tournament of capacity 1, in registration, whose one slot alice
    holds. *)
Definition full_with_alice : Tournament :=
  set_participants (mkParticipants 1 1 [teamData 1 alice])
    (sample registration open_dates).

Definition confirmed_team (uid : ObjectId) : Team :=
  {| teamId := Id uid;
     players := [mkPlayer uid uid "player"];
     registeredAt := 1;
     team_status := confirmed;
     team_score := 0;
     placement := None |}.

Definition with_teams (ts : list Team) : Tournament :=
  set_participants (mkParticipants 16 (Z.of_nat (length ts)) ts)
    (sample upcoming open_dates).

(** Eight confirmed teams, and one that is only registered. *)
Definition eight_confirmed : Tournament :=
  with_teams
    (teamData 1 alice
     :: (confirmed_team <$> ["p1"; "p2"; "p3"; "p4"; "p5"; "p6"; "p7"; "p8"])).

Definition three_confirmed : Tournament :=
  with_teams (confirmed_team <$> ["p1"; "p2"; "p3"]).

Definition one_confirmed : Tournament :=
  with_teams [teamData 1 alice; confirmed_team "p1"].

Definition pending_match (mid : string) (a b : Ref) : Match :=
  mkMatch mid a b Undefined None pending None None.

(** Two identifiers that belong to no team. *)
Definition zed : ObjectId := "5f8d0d55b54764421b7156c3".
Definition yan : ObjectId := "5f8d0d55b54764421b7156c4".

(** The bracket of three confirmed teams, and the same after [zed], who is
    in no team, was recorded as the winner of the first match. *)
Definition three_bracket : Tournament := generateBrackets three_confirmed.

Definition three_after : Tournament :=
  set_brackets
    [ mkRound 1 [mkMatch "R1M1" (Id "p1") (Id "p2") (Id zed)
                   (Some (mkScore 2 0)) match_completed None (Some 50);
                 pending_match "R1M2" (Id "p3") Undefined];
      mkRound 2 [pending_match "R2M1" Null Null] ]
    three_bracket.

(** A tournament whose chat holds one message, written by alice. *)
Definition chat_one : Tournament :=
  set_chat [mkChatMessage "m1" (Id "a") "alice" "hi" 7 false]
    (sample registration open_dates).

Definition ranked_user (uid : ObjectId) (sc : Z) : User :=
  mkUser uid uid true sc [] [].

(** Twelve active users with distinct total scores, best first. *)
Definition twelve_users : list User :=
  [ ranked_user "u01" 120; ranked_user "u02" 110; ranked_user "u03" 100;
    ranked_user "u04" 90; ranked_user "u05" 80; ranked_user "u06" 70;
    ranked_user "u07" 60; ranked_user "u08" 50; ranked_user "u09" 40;
    ranked_user "u10" 30; ranked_user "u11" 20; ranked_user "u12" 10 ].

(** Two players of one game; the second is weaker at it and strong at
    another. *)
Definition game_users : list User :=
  [ mkUser "g1" "g1" true 0 [mkGameStat "valorant" 100] [];
    mkUser "g2" "g2" true 0
      [mkGameStat "valorant" 10; mkGameStat "cs2" 500] [] ].

(** Two roster entries with a player who plays in both, a player who has
    been away, a player without login and a player whose user is gone. *)
Definition populated_sample : list (list (option PopulatedUser)) :=
  [ [ Some (mkPopulatedUser "a" "alice" (Some "Alice") None (Some 990000));
      Some (mkPopulatedUser "b" "bob" (Some "") None (Some 100)) ];
    [ Some (mkPopulatedUser "a" "alice" (Some "Alice") None (Some 990000));
      Some (mkPopulatedUser "c" "carol" None None None);
      None ] ].

Definition first_blood : Achievement :=
  mkAchievement "first-blood" "First blood" "Win a match" "cup" "combat" 10.

(** The same achievement unlocked again, later and under another name. *)
Definition first_blood_again : Achievement :=
  mkAchievement "first-blood" "Blood again" "Win once more" "cup" "combat" 99.

(** * Properties *)

(** ** Lifecycle *)

Ltac clock :=
  rewrite ?Z.geb_leb, ?Z.gtb_ltb in *;
  rewrite ?andb_true_iff, ?andb_false_iff, ?Z.ltb_lt, ?Z.ltb_ge,
    ?Z.leb_le, ?Z.leb_gt in *.

Lemma status_set_status s t : status (set_status s t) = s.
Proof. reflexivity. Qed.

(** The status [updateStatus] stores, case by case along the chain; with
    dates that are numbers, some branch always fires. *)
Lemma updateStatus_cases now t :
  let d := dates t in
  (now < registrationStart d ∧ updateStatus now t = set_status draft t)
  ∨ (registrationStart d ≤ now ≤ registrationEnd d
     ∧ updateStatus now t = set_status registration t)
  ∨ (registrationStart d ≤ now ∧ registrationEnd d < now < tournamentStart d
     ∧ updateStatus now t = set_status upcoming t)
  ∨ (registrationStart d ≤ now ∧ registrationEnd d < now
     ∧ tournamentStart d ≤ now
     ∧ (∀ e, tournamentEnd d = Some e → now ≤ e)
     ∧ updateStatus now t = set_status live t)
  ∨ (registrationStart d ≤ now ∧ registrationEnd d < now
     ∧ tournamentStart d ≤ now
     ∧ (∃ e, tournamentEnd d = Some e ∧ e < now)
     ∧ updateStatus now t = set_status completed t).
Proof.
  intros d. unfold updateStatus. fold d.
  destruct (now <? registrationStart d) eqn:H1;
    [left; clock; split; [lia|done]|].
  destruct ((now >=? registrationStart d) && (now <=? registrationEnd d))
    eqn:H2; [right; left; clock; split; [lia|done]|].
  destruct ((now >? registrationEnd d) && (now <? tournamentStart d))
    eqn:H3; [right; right; left; clock; repeat split; (done || lia)|].
  unfold end_unset_or_not_after, end_set_and_after.
  destruct (tournamentEnd d) as [e|]; simpl.
  - destruct ((now >=? tournamentStart d) && (now <=? e)) eqn:H4.
    + right; right; right; left. clock.
      repeat split; try lia. intros e' [= <-]. lia.
    + destruct (now >? e) eqn:H5; clock; [|lia].
      right; right; right; right.
      repeat split; try lia. exists e. split; [done|lia].
  - destruct ((now >=? tournamentStart d) && true) eqn:H4; clock; [|lia].
    right; right; right; left. repeat split; try lia. intros e' [=].
Qed.

Lemma updateStatus_fires now t :
  ∃ s, s ≠ cancelled ∧ updateStatus now t = set_status s t.
Proof.
  destruct (updateStatus_cases now t)
    as [[_ H]|[[_ H]|[(_ & _ & H)|[(_ & _ & _ & _ & H)|(_ & _ & _ & _ & H)]]]];
    eexists; (split; [|exact H]); discriminate.
Qed.

(** The stored status plays no part in the result. *)
Lemma updateStatus_ignores_status now t t' :
  dates t' = dates t →
  status (updateStatus now t') = status (updateStatus now t).
Proof.
  intros Hd.
  pose proof (updateStatus_cases now t) as H.
  pose proof (updateStatus_cases now t') as H'.
  simpl in H, H'. rewrite Hd in H'.
  destruct H as [[? ->]|[[? ->]|[(? & ? & ->)|[(? & ? & ? & He & ->)|(? & ? & ? & He & ->)]]]];
  destruct H' as [[? ->]|[[? ->]|[(? & ? & ->)|[(? & ? & ? & He' & ->)|(? & ? & ? & He' & ->)]]]];
    simpl; try reflexivity; try lia.
  - destruct He' as (e & Hs & ?). specialize (He e Hs). lia.
  - destruct He as (e & Hs & ?). specialize (He' e Hs). lia.
Qed.

(** C1, as stated, fails: a cancelled tournament read at time 5, inside its
    registration window from 0 to 10, comes back with status
    [registration]. *)
Lemma updateStatus_cancelled_counterexample :
  status (sample cancelled open_dates) = cancelled
  ∧ status (updateStatus 5 (sample cancelled open_dates)) = registration.
Proof. split; reflexivity. Qed.

(** C1, amended: [updateStatus] does not keep [cancelled].  For every
    tournament whose status is [cancelled] and every time and schedule, it
    replaces the status by the time-derived one, which is never [cancelled]
    and is the status it computes from any other stored status with the same
    schedule. *)
Theorem updateStatus_overwrites_cancelled now t :
  status t = cancelled →
  status (updateStatus now t) ≠ cancelled
  ∧ ∀ s, status (updateStatus now (set_status s t))
         = status (updateStatus now t).
Proof.
  intros _. split.
  - destruct (updateStatus_fires now t) as (s & Hs & ->). exact Hs.
  - intros s. by apply updateStatus_ignores_status.
Qed.

Lemma updateStatus_overwrites_cancelled_witness :
  status (updateStatus 5 (sample cancelled open_dates)) ≠ cancelled
  ∧ ∀ s, status (updateStatus 5 (set_status s (sample cancelled open_dates)))
         = status (updateStatus 5 (sample cancelled open_dates)).
Proof.
  apply (updateStatus_overwrites_cancelled 5 (sample cancelled open_dates)).
  reflexivity.
Defined.

(** C7, as stated, fails: with registration closing at 5, start at 5 and no
    end, the schedule is in order and at time 5, which is at the start, the
    status is [registration], not [live]. *)
Lemma derived_status_counterexample :
  schedule_ordered tight_dates
  ∧ tournamentEnd tight_dates = None
  ∧ tournamentStart tight_dates ≤ 5
  ∧ status (updateStatus 5 (sample draft tight_dates)) = registration
  ∧ status (updateStatus 5 (sample draft tight_dates)) ≠ live.
Proof. repeat split; (done || (simpl; lia)). Qed.

(** C7, amended: the derived status is a function of the schedule and the
    time alone and follows the chain in its order.  Before
    registration-open it is [draft]; within the registration window,
    bounds included, it is [registration], also when that instant is the
    start; and for a schedule in order: between registration-close and start
    it is [upcoming]; at or after start and after registration-close, with
    no end or not after the end, it is [live]; after a set end it is
    [completed].  In particular, for a schedule in order with no end set,
    the status is [live] at every time at or after start that is after
    registration-close, and with no end set it is never [completed]. *)
Theorem derived_status_mapping now t :
  let d := dates t in
  let s := status (updateStatus now t) in
  (∀ t', dates t' = d → status (updateStatus now t') = s)
  ∧ (now < registrationStart d → s = draft)
  ∧ (registrationStart d ≤ now ≤ registrationEnd d → s = registration)
  ∧ (schedule_ordered d →
     registrationEnd d < now < tournamentStart d → s = upcoming)
  ∧ (schedule_ordered d →
     tournamentStart d ≤ now → registrationEnd d < now →
     (∀ e, tournamentEnd d = Some e → now ≤ e) → s = live)
  ∧ (schedule_ordered d →
     (∃ e, tournamentEnd d = Some e ∧ e < now) → s = completed)
  ∧ (schedule_ordered d → tournamentEnd d = None →
     tournamentStart d ≤ now → registrationEnd d < now → s = live)
  ∧ (tournamentEnd d = None → s ≠ completed).
Proof.
  intros d s. subst d s.
  split; [intros t' Hd; by apply updateStatus_ignores_status|].
  pose proof (updateStatus_cases now t) as H. simpl in H.
  unfold schedule_ordered. revert H.
  destruct (tournamentEnd (dates t)) as [e|];
    intros [[? ->]|[[? ->]|[(? & ? & ->)|[(? & ? & ? & He & ->)
                                        |(? & ? & ? & (e' & He & ?) & ->)]]]];
    simplify_eq; try specialize (He _ eq_refl); simpl;
    repeat split; intros;
    repeat match goal with
           | H : _ ∧ _ |- _ => destruct H
           | H : ∃ _, _ |- _ => destruct H
           | H : ∀ e, Some _ = Some e → _ |- _ => specialize (H _ eq_refl)
           end;
    simplify_eq; try reflexivity; try discriminate; lia.
Qed.

Lemma derived_status_mapping_witness :
  status (updateStatus 20 (sample draft open_dates)) = live.
Proof.
  destruct (derived_status_mapping 20 (sample draft open_dates))
    as (_ & _ & _ & _ & _ & _ & H & _).
  apply H; [unfold schedule_ordered| | |]; simpl; try lia; done.
Defined.

(** ** Registration and the roster invariant *)

Lemma has_player_spec uid tm :
  has_player uid tm = true ↔ ∃ pl, pl ∈ players tm ∧ userId pl = uid.
Proof.
  unfold has_player. rewrite existsb_exists. split.
  - intros (pl & Hin & Heq). exists pl.
    by rewrite list_elem_of_In, <-(bool_decide_eq_true (userId pl = uid)).
  - intros (pl & Hin & Heq). exists pl.
    by rewrite <-list_elem_of_In, bool_decide_eq_true.
Qed.

Lemma alreadyRegistered_spec t u :
  alreadyRegistered t u = true
  ↔ ∃ tm pl, tm ∈ teams (participants t) ∧ pl ∈ players tm
             ∧ userId pl = u_id u.
Proof.
  unfold alreadyRegistered. rewrite existsb_exists. split.
  - intros (tm & Hin & (pl & ? & ?)%has_player_spec).
    exists tm, pl. by rewrite list_elem_of_In.
  - intros (tm & pl & Hin & ? & ?). exists tm.
    rewrite <-list_elem_of_In, has_player_spec. eauto.
Qed.

Lemma registrationOpen_spec now t :
  registrationOpen now t = true
  ↔ registrationStart (dates t) ≤ now ≤ registrationEnd (dates t)
    ∧ status t = registration.
Proof.
  unfold registrationOpen. clock. rewrite bool_decide_eq_true. tauto.
Qed.

(** C2, as stated, fails twice.  A tournament created at time -1, before its
    registration opens at 0, is stored as [draft]; at time 5 its derived
    status is [registration], it has room and no roster entry, and yet the
    registration of alice fails with [RegistrationClosed].  And a full
    tournament that alice is in answers her again with
    [DuplicateRegistration], not with [Conflict]. *)
Lemma register_counterexample :
  createTournament (-1) "t" (plain_body "cup" open_dates 2) olga
    = inr (sample draft open_dates)
  ∧ currentTeams (participants (sample draft open_dates))
    < maxTeams (participants (sample draft open_dates))
  ∧ status (updateStatus 5 (sample draft open_dates)) = registration
  ∧ alreadyRegistered (sample draft open_dates) alice = false
  ∧ register 5 (sample draft open_dates) alice = inl RegistrationClosed
  ∧ maxTeams (participants full_with_alice)
    ≤ currentTeams (participants full_with_alice)
  ∧ register 5 full_with_alice alice = inl DuplicateRegistration.
Proof. repeat split; (done || (simpl; lia)). Qed.

(** C2, amended: for every tournament and caller, register fails with
    [DuplicateRegistration] when some roster entry has the caller among its
    players; otherwise it fails with [Conflict] when
    [currentTeams ≥ maxTeams]; otherwise it fails with [RegistrationClosed]
    unless the current time is within the registration window and the stored
    status is [registration]; and otherwise it succeeds, appends the team
    with status [registered], increments [currentTeams] and
    [totalRegistrations] by one and returns the updated [currentTeams],
    which is the roster size whenever the counter agreed with the roster
    before. *)
Theorem register_outcome now t u :
  let p := participants t in
  let shares :=
    ∃ tm pl, tm ∈ teams p ∧ pl ∈ players tm ∧ userId pl = u_id u in
  let window_open :=
    registrationStart (dates t) ≤ now ≤ registrationEnd (dates t)
    ∧ status t = registration in
  (shares → register now t u = inl DuplicateRegistration)
  ∧ (¬ shares → maxTeams p ≤ currentTeams p →
     register now t u = inl Conflict)
  ∧ (¬ shares → currentTeams p < maxTeams p → ¬ window_open →
     register now t u = inl RegistrationClosed)
  ∧ (¬ shares → currentTeams p < maxTeams p → window_open →
     ∃ t' u',
       register now t u
       = inr (t', u', mkRegisterResponse (currentTeams p + 1) (maxTeams p))
       ∧ teams (participants t') = teams p ++ [teamData now u]
       ∧ team_status (teamData now u) = registered
       ∧ currentTeams (participants t') = currentTeams p + 1
       ∧ maxTeams (participants t') = maxTeams p
       ∧ totalRegistrations (statistics t')
         = totalRegistrations (statistics t) + 1
       ∧ (currentTeams p = Z.of_nat (length (teams p)) →
          currentTeams p + 1
          = Z.of_nat (length (teams (participants t'))))
       ∧ status t' = status t ∧ dates t' = dates t
       ∧ brackets t' = brackets t ∧ chat t' = chat t).
Proof.
  intros p shares window_open.
  assert (Hdup : alreadyRegistered t u = true ↔ shares)
    by apply alreadyRegistered_spec.
  assert (Hopen : registrationOpen now t = true ↔ window_open)
    by apply registrationOpen_spec.
  unfold register, registerTeam. fold p.
  destruct (alreadyRegistered t u) eqn:Ha.
  { assert shares by (by apply Hdup). repeat split; intros; done. }
  assert (¬ shares) as Hns by (rewrite <-Hdup; discriminate).
  destruct (currentTeams p >=? maxTeams p) eqn:Hfull; clock.
  { repeat split; intros; try done; lia. }
  destruct (registrationOpen now t) eqn:Ho; simpl.
  - assert window_open as Hw by by apply Hopen.
    repeat split; intros; try done; try lia.
    eexists _, _. repeat split; try reflexivity.
    simpl. rewrite length_app. simpl. lia.
  - assert (¬ window_open) as Hw by (rewrite <-Hopen; discriminate).
    repeat split; intros; try done; lia.
Qed.

Lemma register_outcome_witness :
  ∃ t' u',
    register 5 (sample registration open_dates) alice
    = inr (t', u', mkRegisterResponse 1 2)
    ∧ teams (participants t') = [teamData 5 alice].
Proof.
  destruct (register_outcome 5 (sample registration open_dates) alice)
    as (_ & _ & _ & H).
  destruct H as (t' & u' & Hr & Ht & _).
  - intros (tm & pl & Hin & _). simpl in Hin. by apply elem_of_nil in Hin.
  - simpl. lia.
  - simpl. split; [lia|reflexivity].
  - exists t', u'. split; [exact Hr|exact Ht].
Defined.

Lemma findIndex_Some {A} (f : A → bool) (l : list A) i :
  findIndex f l = Some i →
  ∃ x, l !! i = Some x ∧ f x = true
       ∧ ∀ j y, (j < i)%nat → l !! j = Some y → f y = false.
Proof.
  revert i. induction l as [|x l IH]; intros i; simpl; [done|].
  destruct (f x) eqn:Hx.
  - intros [= <-]. exists x. repeat split; [done|]. intros j y Hj. lia.
  - destruct (findIndex f l) as [k|]; [|done]. intros [= <-].
    destruct (IH k eq_refl) as (z & Hz & Hfz & Hlt).
    exists z. repeat split; [done..|].
    intros [|j] y Hj; simpl; [by intros [= <-]|].
    apply Hlt. lia.
Qed.

Lemma findIndex_None {A} (f : A → bool) (l : list A) :
  findIndex f l = None → ∀ x, x ∈ l → f x = false.
Proof.
  induction l as [|y l IH]; simpl; [by intros _ x ?%elem_of_nil|].
  destruct (f y) eqn:Hy; [done|].
  destruct (findIndex f l); [done|]. intros _ x.
  rewrite elem_of_cons. intros [->|?]; auto.
Qed.

Lemma findIndex_first {A} (f : A → bool) (l : list A) i x :
  l !! i = Some x → f x = true →
  (∀ j y, (j < i)%nat → l !! j = Some y → f y = false) →
  findIndex f l = Some i.
Proof.
  revert i. induction l as [|z l IH]; intros [|i]; simpl; try done.
  - intros [= ->] -> _. done.
  - intros Hx Hfx Hlt.
    rewrite (Hlt 0%nat z) by (done || lia).
    rewrite (IH i); [done..|].
    intros j y Hj Hy. apply (Hlt (S j) y); [lia|done].
Qed.

Lemma updateStatus_participants now t :
  participants (updateStatus now t) = participants t.
Proof. by destruct (updateStatus_fires now t) as (s & _ & ->). Qed.

Lemma register_roster_inv now t u :
  roster_inv t → roster_inv (saved (λ r, r.1.1) t (register now t u)).
Proof.
  intros (H0 & Hmax & Hlen). unfold register, registerTeam.
  destruct (alreadyRegistered t u); simpl; [by repeat split|].
  destruct (currentTeams (participants t) >=? maxTeams (participants t))
    eqn:Hfull; simpl; [by repeat split|].
  destruct (registrationOpen now t); simpl; [|by repeat split].
  clock. unfold roster_inv. simpl. rewrite length_app. simpl. lia.
Qed.

Lemma unregister_roster_inv t u :
  roster_inv t → roster_inv (saved fst t (unregister t u)).
Proof.
  intros (H0 & Hmax & Hlen). unfold unregister.
  destruct (bool_decide (status t = live) || bool_decide (status t = completed));
    simpl; [by repeat split|].
  destruct (findIndex _ _) as [i|] eqn:Hi; simpl; [|by repeat split].
  apply findIndex_Some in Hi as (tm & Hi & _).
  unfold roster_inv. simpl.
  rewrite length_delete by eauto.
  apply lookup_lt_Some in Hi. lia.
Qed.

Lemma createTournament_inr now newId b u t :
  createTournament now newId b u = inr t →
  b_name b ≠ "" ∧ 2 ≤ b_maxTeams b
  ∧ t = updateStatus now (newTournament newId b u).
Proof.
  unfold createTournament.
  case_bool_decide; simpl; [done|].
  destruct (b_maxTeams b <? 2) eqn:Hm; [done|].
  destruct (valid_document _); [|done]. intros [= <-].
  clock. done.
Qed.







(** ** Match identifiers *)

Lemma append_String c p q : String c p +:+ q = String c (p +:+ q).
Proof. reflexivity. Qed.

Lemma append_empty q : "" +:+ q = q.
Proof. reflexivity. Qed.

Lemma all_digits_app p q :
  all_digits p = true → all_digits q = true → all_digits (p +:+ q) = true.
Proof.
  induction p as [|c p IH]; [by rewrite append_empty|].
  rewrite append_String. simpl.
  rewrite !andb_true_iff. intros [? ?] ?. auto.
Qed.

Lemma pretty_N_char_digit x : is_digit (pretty_N_char x) = true.
Proof.
  unfold pretty_N_char. repeat case_match; reflexivity.
Qed.

Lemma append_assoc_cons p c s : p +:+ String c s = (p +:+ String c "") +:+ s.
Proof.
  induction p as [|d p IH]; [done|].
  rewrite !append_String. by f_equal.
Qed.

Lemma pretty_N_go_digits x s :
  ∃ p, pretty_N_go x s = p +:+ s ∧ all_digits p = true.
Proof.
  revert s. induction (N.lt_wf_0 x) as [x _ IH]; intros s.
  destruct (decide (x = 0)%N) as [->|Hx].
  - exists "". by rewrite pretty_N_go_0.
  - rewrite pretty_N_go_step by lia.
    destruct (IH (x `div` 10)%N) with (s := String (pretty_N_char (x `mod` 10)) s)
      as (p & -> & Hp).
    { apply N.div_lt; lia. }
    exists (p +:+ String (pretty_N_char (x `mod` 10)) "").
    split; [apply append_assoc_cons|].
    apply all_digits_app; [done|].
    simpl. by rewrite pretty_N_char_digit.
Qed.

Lemma pretty_nat_digits (n : nat) : all_digits (pretty n) = true.
Proof.
  unfold pretty, pretty_nat, pretty, pretty_N.
  case_decide; [done|].
  destruct (pretty_N_go_digits (N.of_nat n) "") as (p & -> & Hp).
  apply all_digits_app; done.
Qed.

(** Two strings of digits, each followed by the letter M, that open equal
    strings are equal, and so are the rests. *)
Lemma digits_M_inj p p' q q' :
  all_digits p = true → all_digits p' = true →
  p +:+ String "M" q = p' +:+ String "M" q' → p = p' ∧ q = q'.
Proof.
  revert p'. induction p as [|c p IH]; intros [|c' p'];
    rewrite ?append_String, ?append_empty; simpl.
  - intros _ _ [= ->]. done.
  - rewrite andb_true_iff. intros _ [Hc _] [= <- _]. done.
  - rewrite andb_true_iff. intros [Hc _] _ [= -> _]. done.
  - rewrite !andb_true_iff. intros [_ Hp] [_ Hp'] [= -> Heq].
    destruct (IH p' Hp Hp' Heq) as [-> ->]. done.
Qed.

Lemma matchId_inj ts r i r' i' :
  matchId (bracket_match ts r i) = matchId (bracket_match ts r' i') →
  r = r' ∧ i = i'.
Proof.
  simpl. rewrite !append_String, !append_empty. intros [= Heq].
  apply digits_M_inj in Heq as [Hr Hi]; [|apply pretty_nat_digits..].
  apply (inj pretty) in Hr. apply (inj pretty) in Hi. lia.
Qed.

(** ** Bracket generation *)

Lemma pow_half k : (2 ^ (k + 1) / 2 = 2 ^ k)%nat.
Proof.
  rewrite Nat.add_1_r, Nat.pow_succ_r', Nat.mul_comm.
  by apply Nat.div_mul.
Qed.

Lemma length_bracket_round ts R r :
  length (matches (bracket_round ts R r)) = (2 ^ (R - r))%nat.
Proof.
  unfold bracket_round. cbn [matches].
  by rewrite length_fmap, length_seq, pow_half.
Qed.

Lemma lookup_bracket_round ts R r i :
  (i < 2 ^ (R - r))%nat →
  matches (bracket_round ts R r) !! i = Some (bracket_match ts r i).
Proof.
  intros Hi. unfold bracket_round. cbn [matches].
  rewrite list_lookup_fmap, pow_half, lookup_seq_lt by done.
  reflexivity.
Qed.

Lemma elem_of_bracket_round ts R r m :
  m ∈ matches (bracket_round ts R r) → ∃ i, m = bracket_match ts r i.
Proof.
  unfold bracket_round. cbn [matches].
  intros (i & -> & _)%list_elem_of_fmap. eauto.
Qed.

Lemma fmap_bind_list {A B C} (f : B → C) (g : A → list B) (l : list A) :
  f <$> (l ≫= g) = l ≫= λ x, f <$> g x.
Proof.
  induction l as [|x l IH]; csimpl; [done|].
  by rewrite fmap_app, IH.
Qed.

Lemma NoDup_bracket_ids ts R :
  NoDup (matchId <$> all_matches (bracket_round ts R <$> seq 1 R)).
Proof.
  unfold all_matches. rewrite list_fmap_bind, fmap_bind_list.
  apply NoDup_bind; [| |apply NoDup_seq].
  - intros r r' y _ _.
    intros (m & -> & (i & ->)%elem_of_bracket_round)%list_elem_of_fmap.
    intros (m' & Hid & (i' & ->)%elem_of_bracket_round)%list_elem_of_fmap.
    by apply matchId_inj in Hid as [-> _].
  - intros r _. simpl. rewrite <-list_fmap_compose.
    apply NoDup_fmap_2_strong; [|apply NoDup_seq].
    intros i i' _ _ Hid. simpl in Hid.
    by apply matchId_inj in Hid as [_ ->].
Qed.

(** C4: with [n ≥ 2] confirmed teams, [generateBrackets] produces [R] rounds
    where [R] is the least number with [n ≤ 2^R], that is [ceil(log2(n))];
    round [r] holds [2^(R-r)] matches; match [i] of a round has the id
    "R{round}M{i+1}", status [pending] and no winner; in round 1 its slots
    are the team ids at positions [2i] and [2i+1] of the confirmed roster
    (undefined past its end), in later rounds both slots are null; the ids
    are pairwise distinct; and [n = 8] gives rounds of 4, 2 and 1 matches. *)
Theorem generateBrackets_shape t :
  let ts := confirmed_teams t in
  let n := length ts in
  let bs := brackets (generateBrackets t) in
  (2 ≤ n)%nat →
  ∃ R : nat,
    ceil_log2 n = Num R
    ∧ (2 ^ (R - 1) < n ≤ 2 ^ R)%nat
    ∧ length bs = R
    ∧ (∀ r, (1 ≤ r ≤ R)%nat →
         ∃ b, bs !! (r - 1)%nat = Some b
              ∧ round b = r
              ∧ length (matches b) = (2 ^ (R - r))%nat
              ∧ ∀ i, (i < 2 ^ (R - r))%nat →
                  ∃ m, matches b !! i = Some m
                       ∧ matchId m
                         = "R" +:+ pretty r +:+ "M" +:+ pretty (i + 1)%nat
                       ∧ match_status m = pending
                       ∧ winner m = Undefined
                       ∧ (r = 1%nat →
                          team1 m
                          = from_option teamId Undefined (ts !! (2 * i)%nat)
                          ∧ team2 m
                            = from_option teamId Undefined
                                (ts !! (2 * i + 1)%nat))
                       ∧ ((1 < r)%nat → team1 m = Null ∧ team2 m = Null))
    ∧ NoDup (matchId <$> all_matches bs)
    ∧ (n = 8%nat → (λ b, length (matches b)) <$> bs = [4; 2; 1]%nat).
Proof.
  intros ts n bs Hn. exists (Nat.log2_up n).
  assert (Hbs : bs = bracket_round ts (Nat.log2_up n) <$> seq 1 (Nat.log2_up n)).
  { subst bs. unfold generateBrackets, build_brackets. simpl.
    fold ts. fold n. unfold ceil_log2. destruct n; [lia|done]. }
  split; [unfold ceil_log2; destruct n; [lia|done]|].
  split.
  { pose proof (Nat.log2_up_spec n) as H.
    rewrite <-Nat.sub_1_r in H. apply H. lia. }
  rewrite Hbs. split; [by rewrite length_fmap, length_seq|].
  split; [|split].
  - intros r Hr. exists (bracket_round ts (Nat.log2_up n) r).
    split.
    { rewrite list_lookup_fmap, lookup_seq_lt by lia.
      simpl. do 2 f_equal. lia. }
    split; [done|]. split; [apply length_bracket_round|].
    intros i Hi. exists (bracket_match ts r i).
    split; [by apply lookup_bracket_round|].
    split; [done|]. split; [done|]. split; [done|]. split.
    + intros ->. simpl. unfold teamId_at.
      replace (i * 2)%nat with (2 * i)%nat by lia.
      replace (2 * i + 1)%nat with (i + (i + 0) + 1)%nat by lia.
      by destruct (ts !! _), (ts !! _).
    + intros Hr1. simpl. rewrite !bool_decide_eq_false_2 by lia. done.
  - apply NoDup_bracket_ids.
  - intros H8. subst n. rewrite H8.
    replace (Nat.log2_up 8) with 3%nat by reflexivity.
    cbn [seq fmap list_fmap]. by rewrite !length_bracket_round.
Qed.

Lemma generateBrackets_shape_witness :
  (λ b, length (matches b)) <$> brackets (generateBrackets eight_confirmed)
  = [4; 2; 1]%nat.
Proof.
  destruct (generateBrackets_shape eight_confirmed)
    as (R & _ & _ & _ & _ & _ & H8).
  - vm_compute. lia.
  - apply H8. reflexivity.
Defined.

(** Three confirmed teams: two rounds; the second match of round 1 has an
    undefined second slot, the final has two null slots. *)
Example generateBrackets_three :
  brackets (generateBrackets three_confirmed)
  = [ mkRound 1 [pending_match "R1M1" (Id "p1") (Id "p2");
                 pending_match "R1M2" (Id "p3") Undefined];
      mkRound 2 [pending_match "R2M1" Null Null] ].
Proof. vm_compute. reflexivity. Qed.

(** C10: with at most one confirmed team the computed round count is [≤ 0]
    (minus infinity for none, 0 for one), the loop runs no round, and
    [generateBrackets] replaces the bracket by the empty sequence: no round
    and no match. *)
Theorem generateBrackets_at_most_one t :
  (length (confirmed_teams t) ≤ 1)%nat →
  le_zero (ceil_log2 (length (confirmed_teams t))) = true
  ∧ brackets (generateBrackets t) = []
  ∧ all_matches (brackets (generateBrackets t)) = [].
Proof.
  intros Hn. unfold generateBrackets, build_brackets. simpl.
  destruct (length (confirmed_teams t)) as [|[|n]]; [done|done|lia].
Qed.

Lemma generateBrackets_at_most_one_witness :
  brackets (generateBrackets one_confirmed) = []
  ∧ brackets (generateBrackets (sample draft open_dates)) = [].
Proof.
  split.
  - apply (generateBrackets_at_most_one one_confirmed). vm_compute. lia.
  - apply (generateBrackets_at_most_one (sample draft open_dates)).
    vm_compute. lia.
Defined.

(** ** Match results *)

Lemma update_first_match_Some mid f ms ms' :
  update_first_match mid f ms = Some ms' →
  ∃ mpre m mpost,
    ms = mpre ++ m :: mpost ∧ matchId m = mid
    ∧ (∀ m0, m0 ∈ mpre → matchId m0 ≠ mid)
    ∧ ms' = mpre ++ f m :: mpost.
Proof.
  revert ms'. induction ms as [|m ms IH]; intros ms'; simpl; [done|].
  case_bool_decide as Hm.
  - intros [= <-]. exists [], m, ms. repeat split; [done|].
    by intros m0 ?%elem_of_nil.
  - destruct (update_first_match mid f ms) as [ms1|]; [|done].
    intros [= <-].
    destruct (IH ms1 eq_refl) as (mpre & m1 & mpost & -> & Hid & Hpre & ->).
    exists (m :: mpre), m1, mpost. repeat split; [done|].
    intros m0. rewrite elem_of_cons. intros [->|?]; auto.
Qed.

Lemma update_first_match_None mid f ms :
  update_first_match mid f ms = None → ∀ m, m ∈ ms → matchId m ≠ mid.
Proof.
  induction ms as [|m ms IH]; simpl; [by intros _ m0 ?%elem_of_nil|].
  case_bool_decide as Hm; [done|].
  destruct (update_first_match mid f ms); [done|].
  intros _ m0. rewrite elem_of_cons. intros [->|?]; auto.
Qed.

Lemma all_matches_cons b bs : all_matches (b :: bs) = matches b ++ all_matches bs.
Proof. reflexivity. Qed.

Lemma all_matches_app bs1 bs2 :
  all_matches (bs1 ++ bs2) = all_matches bs1 ++ all_matches bs2.
Proof. apply bind_app. Qed.

Lemma update_brackets_Some mid f bs bs' :
  update_brackets mid f bs = Some bs' →
  ∃ pre b post mpre m mpost,
    bs = pre ++ b :: post
    ∧ matches b = mpre ++ m :: mpost
    ∧ matchId m = mid
    ∧ (∀ m0, m0 ∈ all_matches pre ++ mpre → matchId m0 ≠ mid)
    ∧ bs' = pre ++ mkRound (round b) (mpre ++ f m :: mpost) :: post.
Proof.
  revert bs'. induction bs as [|b bs IH]; intros bs'; simpl; [done|].
  destruct (update_first_match mid f (matches b)) as [ms'|] eqn:Hb.
  - intros [= <-].
    apply update_first_match_Some in Hb
      as (mpre & m & mpost & Hms & Hid & Hpre & ->).
    exists [], b, bs, mpre, m, mpost. repeat split; done.
  - destruct (update_brackets mid f bs) as [bs1|]; [|done].
    intros [= <-].
    destruct (IH bs1 eq_refl)
      as (pre & b1 & post & mpre & m & mpost & -> & Hms & Hid & Hpre & ->).
    exists (b :: pre), b1, post, mpre, m, mpost. repeat split; [done..|].
    intros m0. rewrite all_matches_cons, <-app_assoc, elem_of_app.
    intros [?|?]; [|by apply Hpre].
    by eapply update_first_match_None.
Qed.

Lemma update_brackets_None mid f bs :
  update_brackets mid f bs = None →
  ∀ m, m ∈ all_matches bs → matchId m ≠ mid.
Proof.
  induction bs as [|b bs IH]; [by intros _ m ?%elem_of_nil|].
  rewrite all_matches_cons. simpl.
  destruct (update_first_match mid f (matches b)) eqn:Hb; [done|].
  destruct (update_brackets mid f bs); [done|].
  intros _ m. rewrite elem_of_app.
  intros [?|?]; [by eapply update_first_match_None|by apply IH].
Qed.

Lemma update_first_match_None_any mid f g ms :
  update_first_match mid f ms = None → update_first_match mid g ms = None.
Proof.
  induction ms as [|m ms IH]; simpl; [done|].
  case_bool_decide; [done|].
  destruct (update_first_match mid f ms); [done|].
  intros _. by rewrite IH.
Qed.

Lemma update_brackets_None_any mid f g bs :
  update_brackets mid f bs = None → update_brackets mid g bs = None.
Proof.
  induction bs as [|b bs IH]; simpl; [done|].
  destruct (update_first_match mid f (matches b)) eqn:Hb; [done|].
  rewrite (update_first_match_None_any _ _ g _ Hb).
  destruct (update_brackets mid f bs); [done|]. intros _. by rewrite IH.
Qed.

Lemma castObjectId_nonempty w w' : castObjectId w = Some w' → w ≠ "".
Proof. by intros H ->. Qed.

(** What a successful [recordResult] went through, and that going through it
    is enough. *)
Lemma recordResult_inr now caller mid body t t' :
  recordResult now caller mid body t = inr t' →
  ∃ s1 s2 w bs,
    b_team1Score body = Some s1 ∧ b_team2Score body = Some s2
    ∧ b_winner body ≠ "" ∧ organizer t = caller
    ∧ castObjectId (b_winner body) = Some w
    ∧ update_brackets mid (complete_match now w (mkScore s1 s2)) (brackets t)
      = Some bs
    ∧ t' = set_brackets bs t.
Proof.
  unfold recordResult.
  destruct (b_team1Score body) as [s1|]; [|done].
  destruct (b_team2Score body) as [s2|]; [|done].
  case_bool_decide as Hw; [done|].
  case_bool_decide as Ho; [done|].
  destruct (update_brackets mid id (brackets t)); [|done].
  destruct (castObjectId (b_winner body)) as [w|]; [|done].
  destruct (update_brackets _ _ _) as [bs|] eqn:Hu; [|done].
  intros [= <-]. exists s1, s2, w, bs.
  repeat split; try done;
    try by destruct (decide (organizer t = caller)).
Qed.

Lemma recordResult_succeeds now caller mid body w s1 s2 t bs :
  b_team1Score body = Some s1 → b_team2Score body = Some s2 →
  organizer t = caller →
  castObjectId (b_winner body) = Some w →
  update_brackets mid (complete_match now w (mkScore s1 s2)) (brackets t)
  = Some bs →
  recordResult now caller mid body t = inr (set_brackets bs t).
Proof.
  intros H1 H2 Ho Hc Hu. unfold recordResult. rewrite H1, H2.
  rewrite bool_decide_eq_false_2 by by eapply castObjectId_nonempty.
  rewrite bool_decide_eq_false_2 by (intros H; by apply H).
  destruct (update_brackets mid id (brackets t)) eqn:Hid.
  - by rewrite Hc, Hu.
  - by rewrite (update_brackets_None_any _ _
                  (complete_match now w (mkScore s1 s2)) _ Hid) in Hu.
Qed.

(** C5: a successful [recordResult] was made by the organizer with a valid
    body whose winner is an identifier; it rewrites the first match that
    carries the id, in the first round that holds one, setting its winner,
    score, status [completed] and completion time and keeping its id, its two
    team slots and its scheduled time; every other match and round is as
    before, the team slots of all matches are as before (no winner is moved
    into a later round), and the roster and all other fields of the
    tournament are unchanged. *)
Theorem recordResult_frame now caller mid body t t' :
  recordResult now caller mid body t = inr t' →
  ∃ pre b post mpre m mpost s1 s2 w,
    caller = organizer t
    ∧ b_team1Score body = Some s1 ∧ b_team2Score body = Some s2
    ∧ castObjectId (b_winner body) = Some w
    ∧ brackets t = pre ++ b :: post
    ∧ matches b = mpre ++ m :: mpost
    ∧ matchId m = mid
    ∧ (∀ m0, m0 ∈ all_matches pre ++ mpre → matchId m0 ≠ mid)
    ∧ t' = set_brackets
             (pre
              ++ mkRound (round b)
                   (mpre
                    ++ mkMatch (matchId m) (team1 m) (team2 m)
                         (Id w) (Some (mkScore s1 s2))
                         match_completed (scheduledTime m) (Some now)
                    :: mpost)
              :: post)
             t
    ∧ (λ x, (matchId x, team1 x, team2 x)) <$> all_matches (brackets t')
      = (λ x, (matchId x, team1 x, team2 x)) <$> all_matches (brackets t)
    ∧ participants t' = participants t ∧ chat t' = chat t
    ∧ status t' = status t ∧ dates t' = dates t
    ∧ statistics t' = statistics t ∧ organizer t' = organizer t
    ∧ t_id t' = t_id t ∧ name t' = name t.
Proof.
  intros (s1 & s2 & w & bs & H1 & H2 & Hw & Ho & Hc & Hu & ->)
    %recordResult_inr.
  apply update_brackets_Some in Hu
    as (pre & b & post & mpre & m & mpost & Hbs & Hms & Hid & Hpre & ->).
  exists pre, b, post, mpre, m, mpost, s1, s2, w.
  repeat split; try done.
  simpl. rewrite Hbs, !all_matches_app, !all_matches_cons. simpl.
  rewrite Hms, !fmap_app, !fmap_cons. reflexivity.
Qed.

Lemma recordResult_frame_witness :
  recordResult 50 "o" "R1M1" (mkResultBody zed (Some 2) (Some 0))
    three_bracket = inr three_after
  ∧ participants three_after = participants three_bracket
  ∧ (λ x, (matchId x, team1 x, team2 x)) <$> all_matches (brackets three_after)
    = (λ x, (matchId x, team1 x, team2 x))
        <$> all_matches (brackets three_bracket).
Proof.
  assert (H : recordResult 50 "o" "R1M1" (mkResultBody zed (Some 2) (Some 0))
                three_bracket = inr three_after)
    by (vm_compute; reflexivity).
  split; [exact H|].
  destruct (recordResult_frame _ _ _ _ _ _ H)
    as (pre & b & post & mpre & m & mpost & s1 & s2 & w & _ & _ & _ & _ & _
        & _ & _ & _ & _ & Hslots & Hp & _).
  split; [exact Hp|exact Hslots].
Defined.

Lemma find_skip {A} (f : A → bool) (l1 : list A) x l2 :
  (∀ y, y ∈ l1 → f y = false) → f x = true →
  List.find f (l1 ++ x :: l2) = Some x.
Proof.
  intros Hl1 Hx. induction l1 as [|y l1 IH]; simpl; [by rewrite Hx|].
  rewrite (Hl1 y) by apply list_elem_of_here.
  apply IH. intros z Hz. apply Hl1. by apply list_elem_of_further.
Qed.

Lemma NoDup_fmap_elem {A B} (f : A → B) (l : list A) x y :
  NoDup (f <$> l) → x ∈ l → y ∈ l → f x = f y → x = y.
Proof.
  induction l as [|z l IH]; [by intros _ ?%elem_of_nil|].
  rewrite fmap_cons, NoDup_cons, !elem_of_cons.
  intros [Hz Hnd] [->|Hx] [->|Hy] Hf; auto.
  - destruct Hz. rewrite Hf. by apply list_elem_of_fmap_2.
  - destruct Hz. rewrite <-Hf. by apply list_elem_of_fmap_2.
Qed.

(** C9, as stated, fails: the winner "zed" is not empty and the first match
    of the bracket carries the id, yet the call of the organizer does not
    succeed.  The field [winner] is an ObjectId; "zed" is no identifier, so
    [save()] rejects the document and the handler answers 500; nothing is
    stored. *)
Lemma recordResult_any_winner_counterexample :
  "zed" ≠ ""
  ∧ pending_match "R1M1" (Id "p1") (Id "p2") ∈ all_matches (brackets three_bracket)
  ∧ recordResult 50 (organizer three_bracket) "R1M1"
      (mkResultBody "zed" (Some 2) (Some 0)) three_bracket
    = inl ServerError
  ∧ step (OpRecordResult 50 (organizer three_bracket) "R1M1"
            (mkResultBody "zed" (Some 2) (Some 0))) three_bracket
    = three_bracket.
Proof.
  split; [done|]. split; [vm_compute; apply list_elem_of_here|].
  split; vm_compute; reflexivity.
Qed.

(** C9, amended: [recordResult] does not check that the winner is one of
    the two teams of the match.  For every match of the bracket and every
    submitted winner that is an identifier (a string the ObjectId type of the
    field takes), with numeric scores, the call of the organizer succeeds,
    and afterwards the first match that carries the id is the first such
    match of before with that identifier as its winner; it is the given match
    itself when the ids of the bracket are pairwise distinct.  Nothing is
    asked of the identifier: it may be neither team of the match.  A
    non-empty winner that is no identifier is refused with [ServerError]. *)
Theorem recordResult_any_winner now t mid w s1 s2 m :
  m ∈ all_matches (brackets t) → matchId m = mid →
  (∀ w', castObjectId w = Some w' →
     ∃ t' m0,
       recordResult now (organizer t) mid
         (mkResultBody w (Some s1) (Some s2)) t
       = inr t'
       ∧ List.find (λ x, bool_decide (matchId x = mid))
           (all_matches (brackets t))
         = Some m0
       ∧ List.find (λ x, bool_decide (matchId x = mid))
           (all_matches (brackets t'))
         = Some (complete_match now w' (mkScore s1 s2) m0)
       ∧ winner (complete_match now w' (mkScore s1 s2) m0) = Id w'
       ∧ (NoDup (matchId <$> all_matches (brackets t)) → m0 = m))
  ∧ (w ≠ "" → castObjectId w = None →
     recordResult now (organizer t) mid (mkResultBody w (Some s1) (Some s2)) t
     = inl ServerError).
Proof.
  intros Hm Hid. split.
  - intros w' Hc.
    destruct (update_brackets mid (complete_match now w' (mkScore s1 s2))
                (brackets t)) as [bs|] eqn:Hu.
    2: { by destruct (update_brackets_None _ _ _ Hu m Hm). }
    rewrite (recordResult_succeeds now (organizer t) mid
               (mkResultBody w (Some s1) (Some s2)) w' s1 s2 t bs
               eq_refl eq_refl eq_refl Hc Hu).
    apply update_brackets_Some in Hu
      as (pre & b & post & mpre & m0 & mpost & Hbs & Hms & Hid0 & Hpre & ->).
    assert (Hall : all_matches (brackets t)
                   = (all_matches pre ++ mpre)
                     ++ m0 :: mpost ++ all_matches post).
    { rewrite Hbs, all_matches_app, all_matches_cons, Hms.
      by rewrite <-!app_assoc. }
    eexists _, m0.
    split; [done|]. split; [|split; [|split]].
    + rewrite Hall. apply find_skip.
      * intros y Hy. apply bool_decide_eq_false_2. by apply Hpre.
      * by apply bool_decide_eq_true_2.
    + simpl. rewrite all_matches_app, all_matches_cons. simpl.
      rewrite <-!app_assoc, app_assoc. simpl. apply find_skip.
      * intros y Hy. apply bool_decide_eq_false_2. by apply Hpre.
      * by apply bool_decide_eq_true_2.
    + reflexivity.
    + intros Hnd. eapply NoDup_fmap_elem; [exact Hnd| |exact Hm|congruence].
      rewrite Hall. rewrite elem_of_app, elem_of_cons. auto.
  - intros Hw Hc. unfold recordResult. simpl.
    rewrite bool_decide_eq_false_2 by done.
    rewrite bool_decide_eq_false_2 by (intros H; by apply H).
    destruct (update_brackets mid id (brackets t)) eqn:Hu.
    + by rewrite Hc.
    + by destruct (update_brackets_None _ _ _ Hu m Hm).
Qed.

Lemma recordResult_any_winner_witness :
  Id zed ≠ Id "p1" ∧ Id zed ≠ Id "p2"
  ∧ ∃ t' m0,
      recordResult 50 (organizer three_bracket) "R1M1"
        (mkResultBody zed (Some 2) (Some 0)) three_bracket = inr t'
      ∧ List.find (λ x, bool_decide (matchId x = "R1M1"))
          (all_matches (brackets t'))
        = Some (complete_match 50 zed (mkScore 2 0) m0)
      ∧ winner (complete_match 50 zed (mkScore 2 0) m0) = Id zed.
Proof.
  split; [done|]. split; [done|].
  destruct (recordResult_any_winner 50 three_bracket "R1M1" zed 2 0
              (pending_match "R1M1" (Id "p1") (Id "p2")))
    as [H _].
  - vm_compute. apply list_elem_of_here.
  - reflexivity.
  - destruct (H zed) as (t' & m0 & Hr & _ & Hf & Hwin & _).
    + vm_compute. reflexivity.
    + exists t', m0. split; [exact Hr|]. split; [exact Hf|exact Hwin].
Defined.

(** ** Chat log *)

Lemma updateStatus_chat now t : chat (updateStatus now t) = chat t.
Proof. by destruct (updateStatus_fires now t) as (s & _ & ->). Qed.

Lemma step_chat_not_delete op t :
  is_delete op = false →
  chat (step op t) = chat t ∨ ∃ m, chat (step op t) = chat t ++ [m].
Proof.
  destruct op as [now|now u|u|caller|now caller mid body|now newId u msg
                 |now newId caller msg|caller messageId]; simpl; [..|done];
    intros _.
  - left. apply updateStatus_chat.
  - left. unfold register, registerTeam.
    by repeat (case_match; simpl; simplify_eq/=).
  - left. unfold unregister. by repeat (case_match; simpl).
  - left. unfold generate_brackets. by case_match.
  - left. unfold recordResult. by repeat (case_match; simpl).
  - unfold postChatMessage. repeat (case_match; simpl); eauto.
  - unfold postSystemMessage. repeat (case_match; simpl); eauto.
Qed.

Lemma isAuthor_spec caller m :
  isAuthor caller m = true ↔ msg_userId m = Id caller.
Proof.
  unfold isAuthor. destruct (msg_userId m) as [| |o]; try done.
  rewrite bool_decide_eq_true. split; congruence.
Qed.

Lemma step_chat_delete caller mid t :
  chat (step (OpDeleteChat caller mid) t) = chat t
  ∨ ∃ i m, chat t !! i = Some m ∧ msg_id m = mid
           ∧ (∀ j m', (j < i)%nat → chat t !! j = Some m' → msg_id m' ≠ mid)
           ∧ (isAuthor caller m = true ∨ organizer t = caller)
           ∧ chat (step (OpDeleteChat caller mid) t) = delete i (chat t).
Proof.
  simpl. unfold deleteChatMessage.
  destruct (findIndex _ _) as [i|] eqn:Hi; simpl; [|by left].
  apply findIndex_Some in Hi as (m & Hm & Hid & Hlt). rewrite Hm.
  destruct (negb (isAuthor caller m)
            && negb (bool_decide (organizer t = caller))) eqn:Hperm;
    simpl; [by left|].
  right. exists i, m. split; [done|].
  split; [by apply bool_decide_eq_true in Hid|].
  split.
  { intros j m' Hj Hm'. specialize (Hlt j m' Hj Hm').
    by apply bool_decide_eq_false in Hlt. }
  split; [|done].
  apply andb_false_iff in Hperm as [H|H]; apply negb_false_iff in H.
  - by left.
  - right. by apply bool_decide_eq_true in H.
Qed.

(** C8, as stated, fails: alice deletes her message and the log, which held
    that one message, is empty; the log before is not a prefix of the log
    after. *)
Lemma chat_append_only_counterexample :
  chat chat_one = [mkChatMessage "m1" (Id "a") "alice" "hi" 7 false]
  ∧ deleteChatMessage "a" "m1" chat_one = inr (set_chat [] chat_one)
  ∧ chat (step (OpDeleteChat "a" "m1") chat_one) = []
  ∧ ¬ chat chat_one `prefix_of` chat (step (OpDeleteChat "a" "m1") chat_one).
Proof.
  split; [done|]. split; [done|]. split; [done|].
  intros [k Hk]. discriminate Hk.
Qed.

Lemma deleteChatMessage_first caller mid t i m :
  chat t !! i = Some m → msg_id m = mid →
  (∀ j m', (j < i)%nat → chat t !! j = Some m' → msg_id m' ≠ mid) →
  deleteChatMessage caller mid t
  = if negb (isAuthor caller m) && negb (bool_decide (organizer t = caller))
    then inl Forbidden
    else inr (set_chat (delete i (chat t)) t).
Proof.
  intros Hm Hid Hlt. unfold deleteChatMessage.
  rewrite (findIndex_first _ _ i m); [by rewrite Hm|done|..].
  - by apply bool_decide_eq_true_2.
  - intros j y Hj Hy. apply bool_decide_eq_false_2. by eapply Hlt.
Qed.

(** C8, amended: the chat log is append-only except for the deletion of a
    message.  Every operation other than a deletion leaves the log as it was
    or appends one message at its end, a successful post being the one that
    appends, so along every sequence of such operations the log after is a
    prefix-preserving extension of the log before.  A deletion either fails
    and leaves the tournament as it was, or, for the author of the message or
    the organizer, removes the first message with the given id and keeps the
    other messages in their order: it fails when no message has the id or
    when the caller is neither the author of the first such message nor the
    organizer, and succeeds otherwise. *)
Theorem chat_log_append_only_except_delete :
  (∀ op t, is_delete op = false →
     chat (step op t) = chat t ∨ ∃ m, chat (step op t) = chat t ++ [m])
  ∧ (∀ now newId u msg t t',
       postChatMessage now newId u msg t = inr t' →
       chat t'
       = chat t ++ [mkChatMessage newId (Id (u_id u)) (u_username u) msg now
                      false])
  ∧ (∀ now newId caller msg t t',
       postSystemMessage now newId caller msg t = inr t' →
       chat t' = chat t ++ [mkChatMessage newId Null "System" msg now true])
  ∧ (∀ ops t, forallb (λ op, negb (is_delete op)) ops = true →
       chat t `prefix_of` chat (run ops t))
  ∧ (∀ caller mid t,
       (∃ e, deleteChatMessage caller mid t = inl e
             ∧ step (OpDeleteChat caller mid) t = t)
       ∨ ∃ i m, chat t !! i = Some m ∧ msg_id m = mid
                ∧ (∀ j m', (j < i)%nat → chat t !! j = Some m' →
                           msg_id m' ≠ mid)
                ∧ (isAuthor caller m = true ∨ organizer t = caller)
                ∧ deleteChatMessage caller mid t
                  = inr (set_chat (delete i (chat t)) t)
                ∧ chat (step (OpDeleteChat caller mid) t) = delete i (chat t))
  ∧ (∀ caller mid t i m,
       chat t !! i = Some m → msg_id m = mid →
       (∀ j m', (j < i)%nat → chat t !! j = Some m' → msg_id m' ≠ mid) →
       (isAuthor caller m = true ∨ organizer t = caller →
        chat (step (OpDeleteChat caller mid) t) = delete i (chat t))
       ∧ (isAuthor caller m = false → organizer t ≠ caller →
          deleteChatMessage caller mid t = inl Forbidden
          ∧ chat (step (OpDeleteChat caller mid) t) = chat t))
  ∧ (∀ caller mid t,
       (∀ m, m ∈ chat t → msg_id m ≠ mid) →
       deleteChatMessage caller mid t = inl NotFound
       ∧ chat (step (OpDeleteChat caller mid) t) = chat t)
  ∧ (∀ caller mid t,
       chat (step (OpDeleteChat caller mid) t) `sublist_of` chat t).
Proof.
  split; [exact step_chat_not_delete|].
  split; [|split; [|split; [|split; [|split; [|split]]]]].
  - intros now newId u msg t t'. unfold postChatMessage.
    repeat case_match; try done. by intros [= <-].
  - intros now newId caller msg t t'. unfold postSystemMessage.
    repeat case_match; try done. by intros [= <-].
  - intros ops. induction ops as [|op ops IH]; intros t; simpl; [done|].
    rewrite andb_true_iff, negb_true_iff. intros [Hop Hops].
    etrans; [|by apply IH].
    destruct (step_chat_not_delete op t Hop) as [->|[m ->]]; [done|].
    by apply prefix_app_r.
  - intros caller mid t. simpl. unfold deleteChatMessage.
    destruct (findIndex _ _) as [i|] eqn:Hi; simpl; [|left; eauto].
    apply findIndex_Some in Hi as (m & Hm & Hid & Hlt). rewrite Hm.
    destruct (negb (isAuthor caller m)
              && negb (bool_decide (organizer t = caller))) eqn:Hperm;
      simpl; [left; eauto|].
    right. exists i, m. split; [done|].
    split; [by apply bool_decide_eq_true in Hid|].
    split.
    { intros j m' Hj Hm'. specialize (Hlt j m' Hj Hm').
      by apply bool_decide_eq_false in Hlt. }
    split; [|done].
    apply andb_false_iff in Hperm as [H|H]; apply negb_false_iff in H.
    + by left.
    + right. by apply bool_decide_eq_true in H.
  - intros caller mid t i m Hm Hid Hlt. simpl.
    rewrite (deleteChatMessage_first caller mid t i m Hm Hid Hlt).
    split.
    + intros [Ha|Ho].
      * by rewrite Ha.
      * rewrite (bool_decide_eq_true_2 _ Ho), andb_false_r. done.
    + intros Ha Ho. rewrite Ha, (bool_decide_eq_false_2 _ Ho). done.
  - intros caller mid t Hno. simpl. unfold deleteChatMessage.
    destruct (findIndex _ _) as [i|] eqn:Hi; simpl; [|done].
    apply findIndex_Some in Hi as (m & Hm & Hid & _).
    apply bool_decide_eq_true in Hid.
    destruct (Hno m); [by eapply list_elem_of_lookup_2|done].
  - intros caller mid t.
    destruct (step_chat_delete caller mid t)
      as [->|(i & m & _ & _ & _ & _ & ->)]; [done|].
    apply sublist_delete.
Qed.

Lemma chat_log_append_only_except_delete_witness :
  chat chat_one
  `prefix_of` chat (run [OpPostChat 8 "m2" olga "welcome"; OpGet 9;
                         OpPostSystem 10 "m3" "o" "starting"] chat_one)
  ∧ chat (step (OpDeleteChat "a" "m1") chat_one)
    = delete 0%nat (chat chat_one)
  ∧ chat (step (OpDeleteChat "b" "m1") chat_one) = chat chat_one.
Proof.
  destruct chat_log_append_only_except_delete
    as (_ & _ & _ & H & _ & Hd & _).
  split; [apply H; reflexivity|].
  split.
  - destruct (Hd "a" "m1" chat_one 0%nat
                (mkChatMessage "m1" (Id "a") "alice" "hi" 7 false))
      as [Hyes _].
    + reflexivity.
    + reflexivity.
    + intros j m' Hj. lia.
    + apply Hyes. left. reflexivity.
  - destruct (Hd "b" "m1" chat_one 0%nat
                (mkChatMessage "m1" (Id "a") "alice" "hi" 7 false))
      as [_ Hno].
    + reflexivity.
    + reflexivity.
    + intros j m' Hj. lia.
    + apply Hno; [reflexivity|discriminate].
Defined.

(** ** Rank of a user and its neighbours *)

Lemma length_mapi {A B} (f : A → nat → B) (l : list A) :
  length (mapi f l) = length l.
Proof.
  unfold mapi. rewrite length_fmap, length_zip, length_seq. lia.
Qed.

Lemma lookup_mapi {A B} (f : A → nat → B) (l : list A) i x :
  l !! i = Some x → mapi f l !! i = Some (f x i).
Proof.
  intros Hx. unfold mapi. rewrite list_lookup_fmap.
  assert (Hz : zip (seq 0 (length l)) l !! i = Some (i, x)).
  { apply lookup_zip_with_Some. exists i, x.
    split; [done|]. split; [|done].
    apply lookup_seq. split; [done|]. by eapply lookup_lt_Some. }
  by rewrite Hz.
Qed.

(** In the overall scope the rank is one more than the number of active
    users with a strictly greater total score, the rows are eleven
    consecutive rows of the sorted scope from row [max(0, userRank - 6)] on,
    and the rank written on a row is its position in the sorted scope. *)
Lemma getUserRank_overall users uid user :
  List.find (λ u, bool_decide (u_id u = uid)) users = Some user →
  ∃ r,
    getUserRank users uid None = inr r
    ∧ userRank r
      = 1 + Z.of_nat (length (List.filter
                                (λ u, isActive u
                                      && (totalScore u >? totalScore user))
                                users))
    ∧ player <$> nearbyPlayers r
      = take 11 (drop (Z.to_nat (Z.max 0 (userRank r - 6)))
                      (sorted_scope None users))
    ∧ ∀ i p, nearbyPlayers r !! i = Some p →
             rank p = Z.max 0 (userRank r - 6) + Z.of_nat i + 1
             ∧ sorted_scope None users
                 !! (Z.to_nat (Z.max 0 (userRank r - 6)) + i)%nat
               = Some (player p).
Proof.
  intros Hu. unfold getUserRank. rewrite Hu. simpl.
  eexists. split; [reflexivity|]. simpl.
  set (above := length _).
  set (rows := take 11 _).
  split; [lia|]. split.
  - apply list_eq. intros i. rewrite list_lookup_fmap.
    destruct (rows !! i) as [x|] eqn:Hx.
    + by rewrite (lookup_mapi _ _ _ _ Hx).
    + rewrite (proj2 (lookup_ge_None _ _)); [done|].
      rewrite length_mapi. by apply lookup_ge_None.
  - intros i p Hp.
    destruct (rows !! i) as [x|] eqn:Hx.
    2: { apply lookup_ge_None in Hx. apply lookup_lt_Some in Hp.
         rewrite length_mapi in Hp. lia. }
    rewrite (lookup_mapi _ _ _ _ Hx) in Hp. injection Hp as <-. simpl.
    split; [lia|].
    subst rows. apply lookup_take_Some in Hx as [Hx _].
    by rewrite lookup_drop in Hx.
Qed.

(** C6 at a failing input: twelve active users with distinct scores, and the
    query for the best of them.  Its rank is 1, and the nearby players are
    the eleven users of ranks 1 to 11, not the six of ranks 1 to 6. *)
Theorem getUserRank_rank_one_window :
  ∃ r,
    getUserRank twelve_users "u01" None = inr r
    ∧ userRank r = 1
    ∧ rank <$> nearbyPlayers r = [1; 2; 3; 4; 5; 6; 7; 8; 9; 10; 11]
    ∧ (λ p, u_id (row_user (player p))) <$> nearbyPlayers r
      = ["u01"; "u02"; "u03"; "u04"; "u05"; "u06"; "u07"; "u08"; "u09";
         "u10"; "u11"]
    ∧ isCurrentUser <$> nearbyPlayers r
      = [true; false; false; false; false; false; false; false; false;
         false; false].
Proof. eexists. split; [reflexivity|]. vm_compute. repeat split. Qed.

(** In the scope of a game the count of the users above takes a user whose
    score at another game is greater: g1 leads valorant with 100 against 10
    and is given rank 2, while the sorted scope has it first. *)
Example getUserRank_game_scope :
  ∃ r,
    getUserRank game_users "g1" (Some "valorant") = inr r
    ∧ userRank r = 2
    ∧ (λ p, (u_id (row_user (player p)), rank p, isCurrentUser p))
        <$> nearbyPlayers r
      = [("g1", 1, true); ("g2", 2, false)].
Proof. eexists. split; [reflexivity|]. vm_compute. repeat split. Qed.

(** The sort of the scope rearranges the rows and puts them in descending
    order of score. *)
Lemma insert_desc_Permutation x l : insert_desc x l ≡ₚ x :: l.
Proof.
  induction l as [|y l IH]; simpl; [done|].
  case_match; [|done].
  rewrite IH. apply Permutation_swap.
Qed.

Lemma sort_desc_Permutation l : sort_desc l ≡ₚ l.
Proof.
  induction l as [|x l IH]; simpl; [done|].
  by rewrite insert_desc_Permutation, IH.
Qed.

Lemma insert_desc_sorted x l :
  StronglySorted (λ a b, row_key b ≤ row_key a) l →
  StronglySorted (λ a b, row_key b ≤ row_key a) (insert_desc x l).
Proof.
  induction 1 as [|y l Hs IH Hy]; simpl.
  - repeat constructor.
  - destruct (row_key x <? row_key y) eqn:Hxy; clock.
    + constructor; [done|].
      rewrite insert_desc_Permutation. constructor; [lia|done].
    + constructor; [by constructor|].
      constructor; [lia|].
      eapply Forall_impl; [exact Hy|]. simpl. intros z Hz. lia.
Qed.

Lemma sort_desc_sorted l :
  StronglySorted (λ a b, row_key b ≤ row_key a) (sort_desc l).
Proof.
  induction l as [|x l IH]; simpl; [constructor|].
  by apply insert_desc_sorted.
Qed.

(** ** The roster invariant along every sequence of requests *)

Lemma step_roster_inv op t : roster_inv t → roster_inv (step op t).
Proof.
  intros Ht.
  destruct op as [now|now u|u|caller|now caller mid body|now newId u msg
                 |now newId caller msg|caller messageId]; simpl.
  - unfold roster_inv. by rewrite updateStatus_participants.
  - by apply register_roster_inv.
  - by apply unregister_roster_inv.
  - unfold generate_brackets. by case_match.
  - unfold recordResult. by repeat (case_match; simpl).
  - unfold postChatMessage. by repeat (case_match; simpl).
  - unfold postSystemMessage. by repeat (case_match; simpl).
  - unfold deleteChatMessage. by repeat (case_match; simpl).
Qed.

Lemma run_roster_inv ops t : roster_inv t → roster_inv (run ops t).
Proof.
  revert t. induction ops as [|op ops IH]; intros t Ht; simpl; [done|].
  by apply IH, step_roster_inv.
Qed.

(** * Further properties *)

(** ** Lifecycle *)

Lemma updateStatus_dates now t : dates (updateStatus now t) = dates t.
Proof. by destruct (updateStatus_fires now t) as (s & _ & ->). Qed.

(** X1: Two reads in a row leave what the second alone leaves: the stored status
    never reaches the next one, and a read repeated at the same instant
    changes nothing. *)
Theorem updateStatus_last_read_wins now1 now2 t :
  updateStatus now2 (updateStatus now1 t) = updateStatus now2 t
  ∧ updateStatus now1 (updateStatus now1 t) = updateStatus now1 t.
Proof.
  assert (H : ∀ a b, updateStatus b (updateStatus a t) = updateStatus b t).
  { intros a b.
    destruct (updateStatus_fires a t) as (s1 & _ & H1).
    destruct (updateStatus_fires b t) as (s2 & _ & H2).
    destruct (updateStatus_fires b (updateStatus a t)) as (s3 & _ & H3).
    assert (s3 = s2) as ->.
    { pose proof (updateStatus_ignores_status b t (updateStatus a t)
                    (updateStatus_dates a t)) as E.
      by rewrite H3, H2 in E. }
    rewrite H3, H2, H1. reflexivity. }
  split; apply H.
Qed.

(** X2: For a schedule in order the derived status never steps back as the clock
    advances: draft, registration, upcoming, live, completed. *)
Theorem updateStatus_monotone now1 now2 t :
  schedule_ordered (dates t) → now1 ≤ now2 →
  (status_rank (status (updateStatus now1 t))
   ≤ status_rank (status (updateStatus now2 t)))%nat.
Proof.
  unfold schedule_ordered. intros (H1 & H2 & H3) Hle.
  pose proof (updateStatus_cases now1 t) as C1.
  pose proof (updateStatus_cases now2 t) as C2.
  simpl in C1, C2. revert H3 C1 C2.
  destruct (tournamentEnd (dates t)) as [e|]; intros H3
    [[? ->]|[[? ->]|[(? & ? & ->)|[(? & ? & ? & He1 & ->)
                                 |(? & ? & ? & (e1 & He1 & ?) & ->)]]]]
    [[? ->]|[[? ->]|[(? & ? & ->)|[(? & ? & ? & He2 & ->)
                                 |(? & ? & ? & (e2 & He2 & ?) & ->)]]]];
    simplify_eq; simpl;
    try specialize (He1 _ eq_refl); try specialize (He2 _ eq_refl); lia.
Qed.

Lemma updateStatus_monotone_witness :
  (status_rank (status (updateStatus 5%Z (sample draft open_dates)))
   ≤ status_rank (status (updateStatus 15%Z (sample draft open_dates))))%nat.
Proof.
  apply updateStatus_monotone; [unfold schedule_ordered; simpl|]; lia.
Defined.

(** X3: A read inside the registration window opens the registration: whatever
    status was stored, after [updateStatus] at a time within the window a
    caller who is in no roster entry registers, at any later time within the
    window, as long as there is room. *)
Theorem register_after_read now0 now t u :
  registrationStart (dates t) ≤ now0 ≤ registrationEnd (dates t) →
  registrationStart (dates t) ≤ now ≤ registrationEnd (dates t) →
  alreadyRegistered t u = false →
  currentTeams (participants t) < maxTeams (participants t) →
  ∃ t' u',
    register now (updateStatus now0 t) u
    = inr (t', u',
           mkRegisterResponse (currentTeams (participants t) + 1)
                              (maxTeams (participants t)))
    ∧ teams (participants t') = teams (participants t) ++ [teamData now u].
Proof.
  intros Hw0 Hw Hdup Hroom.
  assert (Hs : updateStatus now0 t = set_status registration t).
  { destruct (updateStatus_cases now0 t)
      as [[? ?]|[[? ?]|[(? & ? & ?)|[(? & ? & ? & ? & ?)|(? & ? & ? & ? & ?)]]]];
      [lia|done|lia..]. }
  rewrite Hs. unfold register, registerTeam.
  replace (alreadyRegistered (set_status registration t) u) with false.
  assert ((currentTeams (participants (set_status registration t))
           >=? maxTeams (participants (set_status registration t))) = false)
    as -> by (simpl; clock; lia).
  assert (registrationOpen now (set_status registration t) = true) as ->.
  { apply registrationOpen_spec. simpl. split; [lia|done]. }
  simpl. eexists _, _. split; reflexivity.
Qed.

Lemma register_after_read_witness :
  ∃ t' u',
    register 7 (updateStatus 5 (sample draft open_dates)) alice
    = inr (t', u', mkRegisterResponse 1 2)
    ∧ teams (participants t') = [teamData 7 alice].
Proof.
  apply (register_after_read 5 7 (sample draft open_dates) alice);
    simpl; (lia || reflexivity).
Defined.

(** ** Registration and unregistration *)

Lemma register_inr now t u t1 u1 r :
  register now t u = inr (t1, u1, r) →
  alreadyRegistered t u = false
  ∧ currentTeams (participants t) < maxTeams (participants t)
  ∧ registrationOpen now t = true
  ∧ t1 = set_statistics
           (mkStatistics (totalRegistrations (statistics t) + 1)
                         (totalViews (statistics t)))
           (set_participants
              (mkParticipants (maxTeams (participants t))
                              (currentTeams (participants t) + 1)
                              (teams (participants t) ++ [teamData now u]))
              t)
  ∧ u1 = push_tournament (mkUserTournament (t_id t) now "registered") u.
Proof.
  unfold register, registerTeam.
  destruct (alreadyRegistered t u); [done|].
  destruct (currentTeams (participants t) >=? maxTeams (participants t))
    eqn:Hfull; [done|].
  destruct (registrationOpen now t); [|done].
  simpl. intros [= <- <- <-]. clock. repeat split; (done || lia).
Qed.

Lemma findIndex_app_last {A} (f : A → bool) (l : list A) y :
  (∀ x, x ∈ l → f x = false) → f y = true →
  findIndex f (l ++ [y]) = Some (length l).
Proof.
  intros Hl Hy. induction l as [|x l IH]; simpl; [by rewrite Hy|].
  rewrite (Hl x) by apply list_elem_of_here.
  rewrite IH; [done|]. intros z Hz. apply Hl. by apply list_elem_of_further.
Qed.

Lemma existsb_false {A} (f : A → bool) (l : list A) :
  existsb f l = false ↔ ∀ x, x ∈ l → f x = false.
Proof.
  induction l as [|y l IH]; simpl.
  - split; [by intros _ x ?%elem_of_nil|done].
  - rewrite orb_false_iff, IH. split.
    + intros [Hy Hl] x. rewrite elem_of_cons. intros [->|?]; auto.
    + intros H. split; [apply H, list_elem_of_here|].
      intros x Hx. by apply H, list_elem_of_further.
Qed.

Lemma has_player_teamData now u : has_player (u_id u) (teamData now u) = true.
Proof. unfold has_player. simpl. by rewrite bool_decide_eq_true_2. Qed.

Lemma filter_tournaments_fresh tid (l : list UserTournament) :
  (∀ e, e ∈ l → tournamentId e ≠ tid) →
  filter (λ e, tournamentId e ≠ tid) l = l.
Proof.
  induction l as [|e l IH]; intros H; [done|].
  rewrite filter_cons_True by apply H, list_elem_of_here.
  rewrite IH; [done|]. intros e' He'. by apply H, list_elem_of_further.
Qed.

(** X4: Register and then unregister: the unregistration of the same user
    succeeds and gives back the roster and [currentTeams] of before, with
    status, dates, brackets and chat untouched; [totalRegistrations] keeps
    the increment; and the tournament list of the user is the one of before
    when it held no entry for this tournament. *)
Theorem register_unregister now t u t1 u1 r :
  register now t u = inr (t1, u1, r) →
  ∃ t2 u2,
    unregister t1 u1 = inr (t2, u2)
    ∧ participants t2 = participants t
    ∧ totalRegistrations (statistics t2)
      = totalRegistrations (statistics t) + 1
    ∧ status t2 = status t ∧ dates t2 = dates t
    ∧ brackets t2 = brackets t ∧ chat t2 = chat t
    ∧ ((∀ e, e ∈ tournaments u → tournamentId e ≠ t_id t) → u2 = u).
Proof.
  intros (Hdup & Hroom & Hopen & -> & ->)%register_inr.
  apply registrationOpen_spec in Hopen as [_ Hst].
  unfold unregister. simpl. rewrite Hst. simpl.
  rewrite findIndex_app_last.
  - eexists _, _. split; [reflexivity|]. simpl.
    rewrite (delete_middle _ []), app_nil_r.
    replace (currentTeams (participants t) + 1 - 1)
      with (currentTeams (participants t)) by lia.
    split; [by destruct (participants t)|].
    repeat split; try done.
    intros Hfresh. unfold filter_tournaments, push_tournament. simpl.
    rewrite filter_app, filter_tournaments_fresh by done.
    rewrite filter_cons_False by (simpl; auto).
    rewrite filter_nil, app_nil_r. by destruct u.
  - by apply existsb_false.
  - apply has_player_teamData.
Qed.

Lemma register_unregister_witness :
  ∃ t2 u2,
    unregister
      (set_statistics (mkStatistics 1 0)
         (set_participants (mkParticipants 2 1 [teamData 5 alice])
            (sample registration open_dates)))
      (push_tournament (mkUserTournament "t" 5 "registered") alice)
    = inr (t2, u2)
    ∧ participants t2 = participants (sample registration open_dates).
Proof.
  destruct (register_unregister 5 (sample registration open_dates) alice
              (set_statistics (mkStatistics 1 0)
                 (set_participants (mkParticipants 2 1 [teamData 5 alice])
                    (sample registration open_dates)))
              (push_tournament (mkUserTournament "t" 5 "registered") alice)
              (mkRegisterResponse 1 2) eq_refl)
    as (t2 & u2 & Hu & Hp & _).
  exists t2, u2. split; [exact Hu|exact Hp].
Defined.

Lemma step_keeps_player op t uid :
  is_unregister op = false →
  existsb (has_player uid) (teams (participants t)) = true →
  existsb (has_player uid) (teams (participants (step op t))) = true.
Proof.
  destruct op as [now|now u|u|caller|now caller mid body|now newId u msg
                 |now newId caller msg|caller messageId]; simpl; [| |done|..];
    intros _ Hin.
  - by rewrite updateStatus_participants.
  - destruct (register now t u) as [e|[[t1 u1] r]] eqn:Hr; [done|]. simpl.
    apply register_inr in Hr as (_ & _ & _ & -> & _). simpl.
    by rewrite existsb_app, Hin.
  - unfold generate_brackets. by case_match.
  - unfold recordResult. by repeat (case_match; simpl).
  - unfold postChatMessage. by repeat (case_match; simpl).
  - unfold postSystemMessage. by repeat (case_match; simpl).
  - unfold deleteChatMessage. by repeat (case_match; simpl).
Qed.

(** X5: Once registered, refused until unregistered: after a successful
    registration, and as long as no unregistration is made, every further
    registration of the same user fails with [DuplicateRegistration], at any
    time and whatever other requests came in between. *)
Theorem register_twice now t u t1 u1 r ops now' u' :
  register now t u = inr (t1, u1, r) →
  forallb (λ op, negb (is_unregister op)) ops = true →
  u_id u' = u_id u →
  register now' (run ops t1) u' = inl DuplicateRegistration.
Proof.
  intros (_ & _ & _ & -> & _)%register_inr Hops Hid.
  assert (Hkeep : ∀ ops t0,
            forallb (λ op, negb (is_unregister op)) ops = true →
            existsb (has_player (u_id u)) (teams (participants t0)) = true →
            existsb (has_player (u_id u))
              (teams (participants (run ops t0))) = true).
  { clear. intros ops. induction ops as [|op ops IH]; intros t0; simpl;
      [done|].
    rewrite andb_true_iff, negb_true_iff. intros [Hop Hops] Hin.
    by apply IH, step_keeps_player. }
  unfold register, alreadyRegistered. rewrite Hid.
  rewrite Hkeep; [done|done|].
  simpl. rewrite existsb_app. simpl.
  by rewrite has_player_teamData, orb_true_r.
Qed.

Lemma register_twice_witness :
  register 9
    (run [OpGet 6; OpRegister 7 olga; OpPostChat 8 "m1" alice "hello"]
       (set_statistics (mkStatistics 1 0)
          (set_participants (mkParticipants 2 1 [teamData 5 alice])
             (sample registration open_dates))))
    alice
  = inl DuplicateRegistration.
Proof.
  apply (register_twice 5 (sample registration open_dates) alice _
           (push_tournament (mkUserTournament "t" 5 "registered") alice)
           (mkRegisterResponse 1 2)).
  - reflexivity.
  - reflexivity.
  - reflexivity.
Defined.

(** X6: The outcomes of an unregistration.  It fails with [TournamentLocked]
    exactly when the stored status is [live] or [completed]; otherwise with
    [NotRegistered] when no roster entry has the caller among its players;
    otherwise it removes the first roster entry that has the caller, keeps
    the others in their order, takes one off [currentTeams], leaves every
    other field of the tournament as it was, and drops from the list of the
    user every entry for this tournament, the user being otherwise as
    before. *)
Theorem unregister_outcome t u :
  let p := participants t in
  let locked := status t = live ∨ status t = completed in
  let shares :=
    ∃ tm pl, tm ∈ teams p ∧ pl ∈ players tm ∧ userId pl = u_id u in
  (locked → unregister t u = inl TournamentLocked)
  ∧ (¬ locked → ¬ shares → unregister t u = inl NotRegistered)
  ∧ (¬ locked → shares →
     ∃ pre tm post,
       teams p = pre ++ tm :: post
       ∧ (∀ tm0, tm0 ∈ pre → has_player (u_id u) tm0 = false)
       ∧ has_player (u_id u) tm = true
       ∧ unregister t u
         = inr (mkTournament (t_id t) (name t) (status t) (dates t)
                  (mkParticipants (maxTeams p) (currentTeams p - 1)
                     (pre ++ post))
                  (brackets t) (organizer t) (chat t) (statistics t),
                mkUser (u_id u) (u_username u) (isActive u) (totalScore u)
                  (gameStats u)
                  (filter (λ e, tournamentId e ≠ t_id t) (tournaments u)))).
Proof.
  intros p locked shares. unfold unregister. fold p.
  assert (Hl : bool_decide (status t = live)
               || bool_decide (status t = completed) = true ↔ locked).
  { rewrite orb_true_iff, !bool_decide_eq_true. done. }
  destruct (bool_decide (status t = live)
            || bool_decide (status t = completed)).
  { assert locked by by apply Hl. repeat split; intros; done. }
  assert (¬ locked) as Hnl by (rewrite <-Hl; discriminate).
  split; [done|].
  destruct (findIndex _ _) as [i|] eqn:Hi.
  - apply findIndex_Some in Hi as (tm & Hi & Htm & Hlt).
    split.
    { intros _ Hns. destruct Hns. apply alreadyRegistered_spec.
      apply existsb_exists. exists tm. split; [|done].
      apply list_elem_of_In. by eapply list_elem_of_lookup_2. }
    intros _ _.
    exists (take i (teams p)), tm, (drop (S i) (teams p)).
    split; [by rewrite take_drop_middle|].
    split.
    { intros tm0 (j & Hj)%list_elem_of_lookup_1.
      apply lookup_take_Some in Hj as [Hj ?]. by eapply Hlt. }
    split; [done|].
    by rewrite delete_take_drop.
  - split; [done|]. intros _ Hs. exfalso.
    apply alreadyRegistered_spec in Hs.
    apply existsb_exists in Hs as (tm & Hin & Htm).
    apply list_elem_of_In in Hin.
    by rewrite (findIndex_None _ _ Hi tm Hin) in Htm.
Qed.

Lemma unregister_outcome_witness :
  unregister (set_status live full_with_alice) alice = inl TournamentLocked
  ∧ unregister (sample registration open_dates) alice = inl NotRegistered
  ∧ ∃ pre tm post,
      teams (participants full_with_alice) = pre ++ tm :: post
      ∧ unregister full_with_alice alice
        = inr (mkTournament "t" "cup" registration open_dates
                 (mkParticipants 1 0 (pre ++ post)) [] "o" []
                 (mkStatistics 0 0),
               alice).
Proof.
  split; [|split].
  - apply (unregister_outcome (set_status live full_with_alice) alice).
    by left.
  - apply (unregister_outcome (sample registration open_dates) alice).
    + intros [?|?]; discriminate.
    + intros (tm & pl & Hin & _). simpl in Hin. by apply elem_of_nil in Hin.
  - destruct (unregister_outcome full_with_alice alice) as (_ & _ & H).
    destruct H as (pre & tm & post & Hts & _ & _ & Hu).
    + intros [?|?]; discriminate.
    + exists (teamData 1 alice), (mkPlayer "a" "alice" "player").
      split; [apply list_elem_of_here|]. split; [apply list_elem_of_here|].
      reflexivity.
    + exists pre, tm, post. split; [exact Hts|exact Hu].
Defined.

(** ** Invariants along every sequence of requests *)

Lemma step_maxTeams op t :
  maxTeams (participants (step op t)) = maxTeams (participants t).
Proof.
  destruct op as [now|now u|u|caller|now caller mid body|now newId u msg
                 |now newId caller msg|caller messageId]; simpl.
  - by rewrite updateStatus_participants.
  - unfold register, registerTeam.
    by repeat (case_match; simpl; simplify_eq/=).
  - unfold unregister. by repeat (case_match; simpl).
  - unfold generate_brackets. by case_match.
  - unfold recordResult. by repeat (case_match; simpl).
  - unfold postChatMessage. by repeat (case_match; simpl).
  - unfold postSystemMessage. by repeat (case_match; simpl).
  - unfold deleteChatMessage. by repeat (case_match; simpl).
Qed.

(** X7: From a tournament that satisfies the roster invariant, whatever
    requests follow in whatever order, [slotsRemaining] stays between 0 and
    [maxTeams], is [maxTeams] minus the length of the roster, and [maxTeams]
    stays as it was.  A tournament created from a body that leaves
    [participants.currentTeams] and [participants.teams] to their defaults
    is such a tournament, with the [maxTeams] of the body; a body that
    brings a counter of its own fixes [slotsRemaining] at creation as
    [maxTeams] minus that counter, whatever the roster. *)
Theorem slotsRemaining_run :
  (∀ t ops,
     roster_inv t →
     0 ≤ slotsRemaining (run ops t) ≤ maxTeams (participants t)
     ∧ slotsRemaining (run ops t)
       = maxTeams (participants t)
         - Z.of_nat (length (teams (participants (run ops t))))
     ∧ maxTeams (participants (run ops t)) = maxTeams (participants t))
  ∧ (∀ now newId b u t ops,
       createTournament now newId b u = inr t →
       b_currentTeams b = None → b_teams b = None →
       0 ≤ slotsRemaining (run ops t) ≤ b_maxTeams b
       ∧ slotsRemaining (run ops t)
         = b_maxTeams b
           - Z.of_nat (length (teams (participants (run ops t))))
       ∧ maxTeams (participants (run ops t)) = b_maxTeams b)
  ∧ (∀ now newId b u t,
       createTournament now newId b u = inr t →
       slotsRemaining t = b_maxTeams b - default 0 (b_currentTeams b)).
Proof.
  assert (Hmax : ∀ ops t0, maxTeams (participants (run ops t0))
                           = maxTeams (participants t0)).
  { intros ops. induction ops as [|op ops IH]; intros t0; simpl;
      [done|]. by rewrite IH, step_maxTeams. }
  assert (Hgen : ∀ t ops,
            roster_inv t →
            0 ≤ slotsRemaining (run ops t) ≤ maxTeams (participants t)
            ∧ slotsRemaining (run ops t)
              = maxTeams (participants t)
                - Z.of_nat (length (teams (participants (run ops t))))
            ∧ maxTeams (participants (run ops t))
              = maxTeams (participants t)).
  { intros t ops Hinv.
    destruct (run_roster_inv ops _ Hinv) as (H0 & H1 & H2).
    unfold slotsRemaining. rewrite Hmax in *. lia. }
  split; [exact Hgen|]. split.
  - intros now newId b u t ops Hc Hct Hts.
    apply createTournament_inr in Hc as (_ & Hb & ->).
    assert (Hinv : roster_inv (updateStatus now (newTournament newId b u))).
    { unfold roster_inv. rewrite updateStatus_participants. simpl.
      rewrite Hct, Hts. simpl. lia. }
    specialize (Hgen _ ops Hinv).
    by rewrite updateStatus_participants in Hgen.
  - intros now newId b u t (_ & _ & ->)%createTournament_inr.
    unfold slotsRemaining. by rewrite updateStatus_participants.
Qed.

Lemma slotsRemaining_run_witness :
  slotsRemaining
    (run [OpGet 5; OpRegister 6 alice; OpRegister 7 olga; OpUnregister alice]
         (sample draft open_dates))
  = 2 - Z.of_nat
          (length
             (teams
                (participants
                   (run [OpGet 5; OpRegister 6 alice; OpRegister 7 olga;
                         OpUnregister alice]
                        (sample draft open_dates))))).
Proof.
  destruct slotsRemaining_run as (_ & H & _).
  apply (H (-1) "t" (plain_body "cup" open_dates 2) olga
           (sample draft open_dates)); reflexivity.
Defined.

Lemma alreadyRegistered_ids t u :
  alreadyRegistered t u = true ↔ u_id u ∈ roster_player_ids t.
Proof.
  rewrite alreadyRegistered_spec. unfold roster_player_ids.
  rewrite list_elem_of_bind. split.
  - intros (tm & pl & Htm & Hpl & <-). exists tm. split; [|done].
    by apply list_elem_of_fmap_2.
  - intros (tm & (pl & -> & Hpl)%list_elem_of_fmap & Htm). by exists tm, pl.
Qed.

Lemma roster_player_ids_register now t u t1 u1 r :
  register now t u = inr (t1, u1, r) →
  roster_player_ids t1 = roster_player_ids t ++ [u_id u]
  ∧ u_id u ∉ roster_player_ids t.
Proof.
  intros (Hdup & _ & _ & -> & _)%register_inr. split.
  - unfold roster_player_ids. simpl. by rewrite bind_app.
  - rewrite <-alreadyRegistered_ids. by rewrite Hdup.
Qed.

Lemma roster_player_ids_delete i t :
  (delete i (teams (participants t)) ≫= λ tm, userId <$> players tm)
  `sublist_of` roster_player_ids t.
Proof.
  unfold roster_player_ids.
  destruct (teams (participants t) !! i) as [tm|] eqn:Hi.
  - rewrite delete_take_drop.
    rewrite <-(take_drop_middle _ _ _ Hi) at 3.
    rewrite !bind_app, bind_cons.
    apply sublist_app; [done|]. by apply sublist_inserts_l.
  - rewrite delete_take_drop.
    apply lookup_ge_None in Hi.
    rewrite take_ge, drop_ge, app_nil_r by lia. done.
Qed.

Lemma step_roster_player_ids op t :
  NoDup (roster_player_ids t) → NoDup (roster_player_ids (step op t)).
Proof.
  intros Hnd.
  destruct op as [now|now u|u|caller|now caller mid body|now newId u msg
                 |now newId caller msg|caller messageId]; simpl.
  - unfold roster_player_ids. by rewrite updateStatus_participants.
  - destruct (register now t u) as [e|[[t1 u1] r]] eqn:Hr; [done|]. simpl.
    apply roster_player_ids_register in Hr as [-> Hnew].
    apply NoDup_app. split; [done|]. split; [|apply NoDup_singleton].
    intros x Hx ->%list_elem_of_singleton. done.
  - unfold unregister. repeat (case_match; simpl); try done.
    eapply sublist_NoDup; [exact Hnd|]. apply roster_player_ids_delete.
  - unfold generate_brackets. by case_match.
  - unfold recordResult. by repeat (case_match; simpl).
  - unfold postChatMessage. by repeat (case_match; simpl).
  - unfold postSystemMessage. by repeat (case_match; simpl).
  - unfold deleteChatMessage. by repeat (case_match; simpl).
Qed.

(** X8: No user gets into the roster twice: from a roster whose player
    identifiers are pairwise distinct, whatever requests follow, they stay
    pairwise distinct.  A tournament created from a body that brings no
    roster starts from such a roster, the empty one. *)
Theorem roster_players_unique_run :
  (∀ t ops,
     NoDup (roster_player_ids t) → NoDup (roster_player_ids (run ops t)))
  ∧ (∀ now newId b u t ops,
       createTournament now newId b u = inr t →
       b_teams b = None →
       roster_player_ids t = []
       ∧ NoDup (roster_player_ids (run ops t))).
Proof.
  assert (H : ∀ t ops, NoDup (roster_player_ids t) →
                       NoDup (roster_player_ids (run ops t))).
  { intros t ops. revert t.
    induction ops as [|op ops IH]; intros t0 H0; simpl;
      [done|]. by apply IH, step_roster_player_ids. }
  split; [exact H|].
  intros now newId b u t ops (_ & _ & ->)%createTournament_inr Hts.
  assert (Hnil : roster_player_ids (updateStatus now (newTournament newId b u))
                 = []).
  { unfold roster_player_ids. rewrite updateStatus_participants. simpl.
    by rewrite Hts. }
  split; [done|]. apply H. rewrite Hnil. constructor.
Qed.

Lemma roster_players_unique_run_witness :
  NoDup (roster_player_ids
           (run [OpGet 5; OpRegister 6 alice; OpRegister 7 alice;
                 OpRegister 8 olga]
                (sample draft open_dates))).
Proof.
  destruct roster_players_unique_run as [_ H].
  apply (H (-1) "t" (plain_body "cup" open_dates 2) olga
           (sample draft open_dates)); reflexivity.
Defined.

(** X9: With no user in the roster twice, a successful unregistration leaves the
    user out of the roster, free to register again, and with no entry for the
    tournament in its list. *)
Theorem unregister_removes_user t u t' u' :
  NoDup (roster_player_ids t) →
  unregister t u = inr (t', u') →
  alreadyRegistered t' u = false
  ∧ ∀ e, e ∈ tournaments u' → tournamentId e ≠ t_id t.
Proof.
  intros Hnd Hu. unfold unregister in Hu.
  destruct (bool_decide (status t = live)
            || bool_decide (status t = completed)); [done|].
  destruct (findIndex _ _) as [i|] eqn:Hi; [|done].
  injection Hu as <- <-.
  apply findIndex_Some in Hi as (tm & Hi & Htm & _).
  split.
  - destruct (alreadyRegistered _ u) eqn:Ha; [|done]. exfalso.
    apply alreadyRegistered_ids in Ha. revert Ha Hnd.
    unfold roster_player_ids. simpl.
    rewrite delete_take_drop.
    rewrite <-(take_drop_middle _ _ _ Hi) at 3.
    rewrite !bind_app, bind_cons, !NoDup_app.
    apply has_player_spec in Htm as (pl & Hpl & Hid).
    assert (Hin : u_id u ∈ userId <$> players tm).
    { rewrite <-Hid. by apply list_elem_of_fmap_2. }
    intros [Ha|Ha]%elem_of_app (_ & Hdisj & _ & Hdisj2 & _).
    + apply (Hdisj _ Ha). apply elem_of_app. by left.
    + by apply (Hdisj2 _ Hin).
  - unfold filter_tournaments. simpl. intros e.
    rewrite list_elem_of_filter. by intros [? _].
Qed.

Lemma unregister_removes_user_witness :
  ∃ t' u',
    unregister full_with_alice alice = inr (t', u')
    ∧ alreadyRegistered t' alice = false.
Proof.
  eexists _, _. split; [reflexivity|].
  eapply (unregister_removes_user full_with_alice alice).
  - vm_compute. apply NoDup_singleton.
  - reflexivity.
Defined.

Lemma step_totalRegistrations op t :
  totalRegistrations (statistics t)
  ≤ totalRegistrations (statistics (step op t))
  ∧ (currentTeams (participants t) ≤ totalRegistrations (statistics t) →
     currentTeams (participants (step op t))
     ≤ totalRegistrations (statistics (step op t))).
Proof.
  destruct op as [now|now u|u|caller|now caller mid body|now newId u msg
                 |now newId caller msg|caller messageId]; simpl.
  - destruct (updateStatus_fires now t) as (s & _ & ->). simpl. lia.
  - unfold register, registerTeam.
    repeat (case_match; simpl; simplify_eq/=); lia.
  - unfold unregister. repeat (case_match; simpl); lia.
  - unfold generate_brackets. case_match; simpl; lia.
  - unfold recordResult. repeat (case_match; simpl); lia.
  - unfold postChatMessage. repeat (case_match; simpl); lia.
  - unfold postSystemMessage. repeat (case_match; simpl); lia.
  - unfold deleteChatMessage. repeat (case_match; simpl); lia.
Qed.

(** X10: The registration counter is monotonic: no request ever lowers
    [totalRegistrations]; and once it is not below [currentTeams] it never
    falls below it, since an unregistration takes a team away and leaves the
    counter.  A tournament created from a body that leaves both counters to
    their defaults starts with both at 0. *)
Theorem totalRegistrations_run :
  (∀ ops t,
     totalRegistrations (statistics t)
     ≤ totalRegistrations (statistics (run ops t)))
  ∧ (∀ ops t,
       currentTeams (participants t) ≤ totalRegistrations (statistics t) →
       currentTeams (participants (run ops t))
       ≤ totalRegistrations (statistics (run ops t)))
  ∧ (∀ now newId b u t ops,
       createTournament now newId b u = inr t →
       b_currentTeams b = None → b_totalRegistrations b = None →
       currentTeams (participants t) = 0
       ∧ totalRegistrations (statistics t) = 0
       ∧ currentTeams (participants (run ops t))
         ≤ totalRegistrations (statistics (run ops t))).
Proof.
  assert (H : ∀ ops t0,
            currentTeams (participants t0)
            ≤ totalRegistrations (statistics t0) →
            currentTeams (participants (run ops t0))
            ≤ totalRegistrations (statistics (run ops t0))).
  { intros ops. induction ops as [|op ops IH]; intros t0 H0; simpl;
      [done|]. by apply IH, step_totalRegistrations. }
  split; [|split; [exact H|]].
  - intros ops. induction ops as [|op ops IH]; intros t; simpl; [done|].
    etrans; [apply (step_totalRegistrations op t)|apply IH].
  - intros now newId b u t ops (_ & _ & ->)%createTournament_inr Hct Htr.
    assert (Hz : currentTeams
                   (participants (updateStatus now (newTournament newId b u)))
                 = 0
                 ∧ totalRegistrations
                     (statistics (updateStatus now (newTournament newId b u)))
                   = 0).
    { destruct (updateStatus_fires now (newTournament newId b u))
        as (s & _ & ->). simpl. by rewrite Hct, Htr. }
    destruct Hz as [Hz1 Hz2]. repeat split; [done..|].
    apply H. lia.
Qed.

Lemma totalRegistrations_run_witness :
  currentTeams
    (participants
       (run [OpGet 5; OpRegister 6 alice; OpUnregister alice]
            (sample draft open_dates)))
  ≤ totalRegistrations
      (statistics
         (run [OpGet 5; OpRegister 6 alice; OpUnregister alice]
              (sample draft open_dates))).
Proof.
  destruct totalRegistrations_run as (_ & _ & H).
  apply (H (-1) "t" (plain_body "cup" open_dates 2) olga
           (sample draft open_dates)); reflexivity.
Defined.

(** ** Brackets *)

Lemma build_brackets_eq ts :
  (2 ≤ length ts)%nat →
  build_brackets ts
  = bracket_round ts (Nat.log2_up (length ts))
      <$> seq 1 (Nat.log2_up (length ts)).
Proof.
  intros Hn. unfold build_brackets, ceil_log2.
  destruct (length ts); [lia|done].
Qed.

Lemma length_rounds_from ts R k :
  length (all_matches (bracket_round ts (k + R) <$> seq (S k) R))
  = (2 ^ R - 1)%nat.
Proof.
  revert k. induction R as [|R IH]; intros k; [done|].
  cbn [seq fmap list_fmap]. rewrite all_matches_cons, length_app.
  rewrite length_bracket_round.
  replace (k + S R)%nat with (S k + R)%nat by lia. rewrite IH.
  replace (S k + R - S k)%nat with R by lia.
  rewrite Nat.pow_succ_r'.
  assert (1 ≤ 2 ^ R)%nat by (apply Nat.neq_0_lt_0, Nat.pow_nonzero; lia).
  lia.
Qed.

Lemma length_rounds ts R :
  length (all_matches (bracket_round ts R <$> seq 1 R)) = (2 ^ R - 1)%nat.
Proof. exact (length_rounds_from ts R 0). Qed.

(** X11: With [n ≥ 2] confirmed teams and [R] rounds the bracket has [2^R - 1]
    matches in all, which is at least the [n - 1] matches a single
    elimination of [n] teams plays. *)
Theorem generateBrackets_match_count t :
  let n := length (confirmed_teams t) in
  (2 ≤ n)%nat →
  length (all_matches (brackets (generateBrackets t)))
  = (2 ^ Nat.log2_up n - 1)%nat
  ∧ (n - 1 ≤ length (all_matches (brackets (generateBrackets t))))%nat.
Proof.
  intros n Hn. unfold generateBrackets. simpl.
  rewrite build_brackets_eq by done. fold n.
  rewrite length_rounds.
  split; [done|].
  pose proof (Nat.log2_up_spec n). lia.
Qed.

Lemma generateBrackets_match_count_witness :
  length (all_matches (brackets (generateBrackets three_confirmed))) = 3%nat.
Proof.
  apply (generateBrackets_match_count three_confirmed). vm_compute. lia.
Defined.

Lemma round_one_slots ts j m :
  (bracket_match ts 1 <$> seq j m) ≫= (λ x, [team1 x; team2 x])
  = teamId_at ts <$> seq (2 * j) (2 * m).
Proof.
  revert j. induction m as [|m IH]; intros j; [done|].
  replace (2 * S m)%nat with (S (S (2 * m))) by lia.
  cbn [seq fmap list_fmap]. rewrite bind_cons, IH.
  replace (2 * S j)%nat with (S (S (2 * j))) by lia.
  simpl. replace (j * 2)%nat with (j + (j + 0))%nat by lia.
  replace (j + (j + 0) + 1)%nat with (S (j + (j + 0))) by lia.
  done.
Qed.

Lemma teamId_at_seq ts m :
  (length ts ≤ m)%nat →
  teamId_at ts <$> seq 0 m
  = (teamId <$> ts) ++ replicate (m - length ts) Undefined.
Proof.
  intros Hm. apply list_eq. intros i.
  rewrite list_lookup_fmap.
  destruct (decide (i < m)%nat) as [Hi|Hi].
  - rewrite lookup_seq_lt by done. simpl. unfold teamId_at.
    destruct (ts !! i) as [tm|] eqn:Hts.
    + rewrite lookup_app_l by (rewrite length_fmap; by eapply lookup_lt_Some).
      by rewrite list_lookup_fmap, Hts.
    + apply lookup_ge_None in Hts.
      rewrite lookup_app_r by (by rewrite length_fmap).
      rewrite length_fmap. symmetry. apply lookup_replicate_2. lia.
  - rewrite lookup_seq_ge by lia. simpl. symmetry.
    apply lookup_ge_None. rewrite length_app, length_fmap, length_replicate.
    lia.
Qed.

(** X12: Every confirmed team is seeded once: with [n ≥ 2] confirmed teams, the
    slots of round 1 read match after match, [team1] then [team2], are the
    team ids of the confirmed roster in its order followed by [2^R - n]
    undefined slots. *)
Theorem generateBrackets_seeding t :
  let ts := confirmed_teams t in
  (2 ≤ length ts)%nat →
  ∃ b bs,
    brackets (generateBrackets t) = b :: bs
    ∧ round b = 1%nat
    ∧ matches b ≫= (λ x, [team1 x; team2 x])
      = (teamId <$> ts)
        ++ replicate (2 ^ Nat.log2_up (length ts) - length ts) Undefined.
Proof.
  intros ts Hn. unfold generateBrackets. simpl. fold ts.
  rewrite build_brackets_eq by done.
  pose proof (Nat.log2_up_spec (length ts)) as Hspec.
  destruct (Nat.log2_up (length ts)) as [|R] eqn:HR.
  { simpl in Hspec. lia. }
  cbn [seq fmap list_fmap]. eexists _, _. split; [reflexivity|].
  split; [done|].
  unfold bracket_round. cbn [matches].
  rewrite pow_half, round_one_slots.
  replace (S R - 1)%nat with R by lia.
  replace (2 * 0)%nat with 0%nat by lia.
  replace (2 * 2 ^ R)%nat with (2 ^ S R)%nat by (by rewrite Nat.pow_succ_r').
  apply teamId_at_seq. lia.
Qed.

Lemma generateBrackets_seeding_witness :
  ∃ b bs,
    brackets (generateBrackets three_confirmed) = b :: bs
    ∧ matches b ≫= (λ x, [team1 x; team2 x])
      = [Id "p1"; Id "p2"; Id "p3"; Undefined].
Proof.
  destruct (generateBrackets_seeding three_confirmed)
    as (b & bs & Hb & _ & Hs).
  - vm_compute. lia.
  - exists b, bs. split; [exact Hb|exact Hs].
Defined.

Lemma elem_of_build_brackets ts m :
  m ∈ all_matches (build_brackets ts) → ∃ r i, m = bracket_match ts r i.
Proof.
  unfold build_brackets. destruct (ceil_log2 (length ts)) as [|R].
  { by intros ?%elem_of_nil. }
  unfold all_matches. rewrite list_fmap_bind.
  intros (r & Hm & _)%list_elem_of_bind.
  apply elem_of_bracket_round in Hm as (i & ->). eauto.
Qed.

(** X13: Regenerating wipes the results: after a successful [recordResult] the
    bracket the organizer regenerates is the one a regeneration before the
    result gives, and in a generated bracket every match is pending, with no
    winner, no score and no completion time. *)
Theorem generateBrackets_discards_results now caller mid body t t' :
  recordResult now caller mid body t = inr t' →
  generate_brackets caller t' = inr (generateBrackets t)
  ∧ ∀ m, m ∈ all_matches (brackets (generateBrackets t)) →
         match_status m = pending ∧ winner m = Undefined
         ∧ score m = None ∧ completedAt m = None.
Proof.
  intros Hr. split.
  - apply recordResult_inr in Hr
      as (s1 & s2 & w & bs & _ & _ & _ & Ho & _ & _ & ->).
    unfold generate_brackets.
    change (organizer (set_brackets bs t)) with (organizer t).
    rewrite bool_decide_eq_false_2 by (by intros ?). reflexivity.
  - intros m (r & i & ->)%elem_of_build_brackets. done.
Qed.

Lemma generateBrackets_discards_results_witness :
  generate_brackets "o" three_after = inr three_bracket.
Proof.
  apply (generateBrackets_discards_results 50 "o" "R1M1"
           (mkResultBody zed (Some 2) (Some 0)) three_bracket three_after).
  vm_compute. reflexivity.
Defined.

(** ** Match results *)

Lemma matchId_complete_match now w sc m :
  matchId (complete_match now w sc m) = matchId m.
Proof. reflexivity. Qed.

Lemma update_first_match_again mid f g ms ms' :
  (∀ m, matchId (f m) = matchId m) → (∀ m, g (f m) = g m) →
  update_first_match mid f ms = Some ms' →
  update_first_match mid g ms' = update_first_match mid g ms.
Proof.
  intros Hf Hgf. revert ms'.
  induction ms as [|m ms IH]; intros ms'; simpl; [done|].
  case_bool_decide as Hm.
  - intros [= <-]. simpl. rewrite Hf, bool_decide_eq_true_2 by done.
    by rewrite Hgf.
  - destruct (update_first_match mid f ms) as [ms1|]; [|done].
    intros [= <-]. simpl. rewrite bool_decide_eq_false_2 by done.
    by rewrite (IH ms1).
Qed.

Lemma update_brackets_again mid f g bs bs' :
  (∀ m, matchId (f m) = matchId m) → (∀ m, g (f m) = g m) →
  update_brackets mid f bs = Some bs' →
  update_brackets mid g bs' = update_brackets mid g bs.
Proof.
  intros Hf Hgf. revert bs'.
  induction bs as [|b bs IH]; intros bs'; simpl; [done|].
  destruct (update_first_match mid f (matches b)) as [ms'|] eqn:Hb.
  - intros [= <-]. simpl.
    rewrite (update_first_match_again _ _ _ _ _ Hf Hgf Hb).
    destruct (update_first_match mid g (matches b)) eqn:Hg; [done|].
    apply (update_first_match_None_any _ _ f) in Hg. congruence.
  - destruct (update_brackets mid f bs) as [bs1|]; [|done].
    intros [= <-]. simpl.
    rewrite (update_first_match_None_any _ _ g _ Hb).
    by rewrite (IH bs1).
Qed.

Lemma update_first_match_ids mid f ms ms' :
  (∀ m, matchId (f m) = matchId m) →
  update_first_match mid f ms = Some ms' →
  matchId <$> ms' = matchId <$> ms.
Proof.
  intros Hf (mpre & m & mpost & -> & _ & _ & ->)%update_first_match_Some.
  by rewrite !fmap_app, !fmap_cons, Hf.
Qed.

Lemma update_first_match_None_iff mid f ms :
  update_first_match mid f ms = None ↔ mid ∉ matchId <$> ms.
Proof.
  split.
  - intros H (m & -> & Hm)%list_elem_of_fmap.
    by apply (update_first_match_None _ _ _ H m Hm).
  - induction ms as [|m ms IH]; simpl; [done|].
    rewrite not_elem_of_cons. intros [Hm Hms].
    rewrite bool_decide_eq_false_2 by done. by rewrite IH.
Qed.

Lemma update_brackets_ids mid f bs bs' :
  (∀ m, matchId (f m) = matchId m) →
  update_brackets mid f bs = Some bs' →
  matchId <$> all_matches bs' = matchId <$> all_matches bs.
Proof.
  intros Hf (pre & b & post & mpre & m & mpost & -> & Hms & _ & _ & ->)
    %update_brackets_Some.
  rewrite !all_matches_app, !all_matches_cons. simpl.
  by rewrite Hms, !fmap_app, !fmap_cons, Hf.
Qed.

Lemma update_brackets_None_iff mid f bs :
  update_brackets mid f bs = None ↔ mid ∉ matchId <$> all_matches bs.
Proof.
  split.
  - intros H (m & -> & Hm)%list_elem_of_fmap.
    by apply (update_brackets_None _ _ _ H m Hm).
  - induction bs as [|b bs IH]; [done|].
    rewrite all_matches_cons, fmap_app, not_elem_of_app. simpl.
    intros [Hb Hbs].
    rewrite (proj2 (update_first_match_None_iff mid f (matches b)) Hb).
    by rewrite IH.
Qed.

Lemma update_brackets_again_found mid f g bs bs' :
  (∀ m, matchId (f m) = matchId m) →
  update_brackets mid f bs = Some bs' →
  is_Some (update_brackets mid g bs') ∧ is_Some (update_brackets mid g bs).
Proof.
  intros Hf Hu. split.
  - destruct (update_brackets mid g bs') eqn:Hg; [eauto|]. exfalso.
    apply update_brackets_None_iff in Hg.
    rewrite (update_brackets_ids _ _ _ _ Hf Hu) in Hg.
    eapply update_brackets_None_iff in Hg. by rewrite Hu in Hg.
  - destruct (update_brackets mid g bs) eqn:Hg; [eauto|].
    by rewrite (update_brackets_None_any _ _ f _ Hg) in Hu.
Qed.

(** X14: The last result wins: a match that has a result takes another one like
    a pending match.  After a successful [recordResult], any further call
    for the same match id gives what it gives on the tournament of before
    the first result. *)
Theorem recordResult_last_write_wins
    now1 now2 caller1 caller2 mid body1 body2 t t1 :
  recordResult now1 caller1 mid body1 t = inr t1 →
  recordResult now2 caller2 mid body2 t1
  = recordResult now2 caller2 mid body2 t.
Proof.
  intros (a1 & a2 & w1 & bs1 & _ & _ & _ & _ & _ & Hu & ->)%recordResult_inr.
  unfold recordResult.
  destruct (b_team1Score body2) as [c1|]; [|done].
  destruct (b_team2Score body2) as [c2|]; [|done].
  case_bool_decide; [done|].
  change (organizer (set_brackets bs1 t)) with (organizer t).
  case_bool_decide; [done|].
  change (brackets (set_brackets bs1 t)) with bs1.
  destruct (update_brackets_again_found mid _ id _ _
              (matchId_complete_match _ _ _) Hu) as [[x1 ->] [x2 ->]].
  destruct (castObjectId (b_winner body2)) as [w2|]; [|done].
  rewrite (update_brackets_again mid _
             (complete_match now2 w2 (mkScore c1 c2)) _ _
             (matchId_complete_match _ _ _) (λ m, eq_refl) Hu).
  by destruct (update_brackets _ _ (brackets t)).
Qed.

Lemma recordResult_last_write_wins_witness :
  recordResult 60 "o" "R1M1" (mkResultBody yan (Some 0) (Some 3)) three_after
  = recordResult 60 "o" "R1M1" (mkResultBody yan (Some 0) (Some 3))
      three_bracket.
Proof.
  apply (recordResult_last_write_wins 50 60 "o" "o" "R1M1"
           (mkResultBody zed (Some 2) (Some 0))).
  vm_compute. reflexivity.
Defined.

Lemma update_first_match_commute mid1 mid2 f g ms :
  mid1 ≠ mid2 →
  (∀ m, matchId (f m) = matchId m) → (∀ m, matchId (g m) = matchId m) →
  update_first_match mid1 f ms ≫= update_first_match mid2 g
  = update_first_match mid2 g ms ≫= update_first_match mid1 f.
Proof.
  intros Hne Hf Hg. induction ms as [|m ms IH]; simpl; [done|].
  destruct (decide (matchId m = mid1)) as [H1|H1];
    destruct (decide (matchId m = mid2)) as [H2|H2]; [congruence|..].
  - rewrite (bool_decide_eq_true_2 _ H1), (bool_decide_eq_false_2 _ H2).
    simpl. rewrite Hf, (bool_decide_eq_false_2 _ H2).
    destruct (update_first_match mid2 g ms); simpl; [|done].
    by rewrite (bool_decide_eq_true_2 _ H1).
  - rewrite (bool_decide_eq_false_2 _ H1), (bool_decide_eq_true_2 _ H2).
    simpl. rewrite Hg, (bool_decide_eq_false_2 _ H1).
    destruct (update_first_match mid1 f ms); simpl; [|done].
    by rewrite (bool_decide_eq_true_2 _ H2).
  - rewrite (bool_decide_eq_false_2 _ H1), (bool_decide_eq_false_2 _ H2).
    destruct (update_first_match mid1 f ms) as [ms1|],
             (update_first_match mid2 g ms) as [ms2|]; simpl in *;
      rewrite ?(bool_decide_eq_false_2 _ H1), ?(bool_decide_eq_false_2 _ H2);
      first [done | by rewrite IH | by rewrite <-IH].
Qed.

Lemma update_brackets_commute mid1 mid2 f g bs :
  mid1 ≠ mid2 →
  (∀ m, matchId (f m) = matchId m) → (∀ m, matchId (g m) = matchId m) →
  update_brackets mid1 f bs ≫= update_brackets mid2 g
  = update_brackets mid2 g bs ≫= update_brackets mid1 f.
Proof.
  intros Hne Hf Hg. induction bs as [|b bs IH]; simpl; [done|].
  pose proof (update_first_match_commute mid1 mid2 f g (matches b) Hne Hf Hg)
    as Hc.
  destruct (update_first_match mid1 f (matches b)) as [ms1|] eqn:H1,
           (update_first_match mid2 g (matches b)) as [ms2|] eqn:H2;
    simpl in *.
  - rewrite Hc.
    destruct (update_first_match mid1 f ms2) as [ms12|] eqn:H12; [done|].
    exfalso. apply update_first_match_None_iff in H12.
    rewrite (update_first_match_ids _ _ _ _ Hg H2) in H12.
    apply update_first_match_None_iff with (f := f) in H12. congruence.
  - rewrite Hc.
    destruct (update_brackets mid2 g bs) as [bs2|]; simpl; [|done].
    by rewrite H1.
  - rewrite <-Hc.
    destruct (update_brackets mid1 f bs) as [bs1|]; simpl; [|done].
    by rewrite H2.
  - destruct (update_brackets mid1 f bs) as [bs1|],
             (update_brackets mid2 g bs) as [bs2|]; simpl in *;
      rewrite ?H1, ?H2; first [done | by rewrite IH | by rewrite <-IH].
Qed.

(** X15: Results of different matches do not interfere: two successful calls for
    two different match ids can be made one after the other in either order,
    both succeed again, and the tournament at the end is the same. *)
Theorem recordResult_commute
    now1 now2 caller1 caller2 mid1 mid2 body1 body2 t t1 t2 :
  mid1 ≠ mid2 →
  recordResult now1 caller1 mid1 body1 t = inr t1 →
  recordResult now2 caller2 mid2 body2 t = inr t2 →
  ∃ t12,
    recordResult now2 caller2 mid2 body2 t1 = inr t12
    ∧ recordResult now1 caller1 mid1 body1 t2 = inr t12.
Proof.
  intros Hne
    (a1 & a2 & w1 & bs1 & Ha1 & Ha2 & _ & Ho1 & Hw1 & Hu1 & ->)
      %recordResult_inr
    (c1 & c2 & w2 & bs2 & Hc1 & Hc2 & _ & Ho2 & Hw2 & Hu2 & ->)
      %recordResult_inr.
  pose proof (update_brackets_commute mid1 mid2 _ _ (brackets t) Hne
                (matchId_complete_match now1 w1 (mkScore a1 a2))
                (matchId_complete_match now2 w2 (mkScore c1 c2)))
    as Hc.
  rewrite Hu1, Hu2 in Hc. simpl in Hc.
  destruct (update_brackets mid1 _ bs2) as [bs12|] eqn:H12.
  - exists (set_brackets bs12 t). split.
    + by rewrite (recordResult_succeeds now2 caller2 mid2 body2 w2 c1 c2
                    (set_brackets bs1 t) bs12 Hc1 Hc2 Ho2 Hw2 Hc).
    + by rewrite (recordResult_succeeds now1 caller1 mid1 body1 w1 a1 a2
                    (set_brackets bs2 t) bs12 Ha1 Ha2 Ho1 Hw1 H12).
  - exfalso. apply update_brackets_None_iff in H12.
    rewrite (update_brackets_ids _ _ _ _
               (matchId_complete_match _ _ _) Hu2) in H12.
    eapply update_brackets_None_iff in H12. by rewrite Hu1 in H12.
Qed.

Lemma recordResult_commute_witness :
  ∃ t12,
    recordResult 60 "o" "R2M1" (mkResultBody yan (Some 1) (Some 4))
      three_after = inr t12
    ∧ ∃ t2,
        recordResult 60 "o" "R2M1" (mkResultBody yan (Some 1) (Some 4))
          three_bracket = inr t2
        ∧ recordResult 50 "o" "R1M1" (mkResultBody zed (Some 2) (Some 0)) t2
          = inr t12.
Proof.
  destruct (recordResult_commute 50 60 "o" "o" "R1M1" "R2M1"
              (mkResultBody zed (Some 2) (Some 0))
              (mkResultBody yan (Some 1) (Some 4))
              three_bracket three_after
              (set_brackets
                 [ mkRound 1 [pending_match "R1M1" (Id "p1") (Id "p2");
                              pending_match "R1M2" (Id "p3") Undefined];
                   mkRound 2 [mkMatch "R2M1" Null Null (Id yan)
                                (Some (mkScore 1 4)) match_completed None
                                (Some 60)] ]
                 three_bracket))
    as (t12 & Ha & Hb).
  - done.
  - vm_compute. reflexivity.
  - vm_compute. reflexivity.
  - exists t12. split; [exact Ha|]. eexists. split; [|exact Hb].
    vm_compute. reflexivity.
Defined.

(** X16: The outcomes of [recordResult] in the order the handler decides them:
    a body with an empty winner or a score that is not numeric is refused
    with [ValidationFailed], whoever calls; a valid body of a caller who is
    not the organizer with [Forbidden], whether the match exists or not; a
    valid body of the organizer with [NotFound] exactly when no match of any
    round carries the id; and when a match carries it, with [ServerError]
    when the winner is no identifier, leaving the tournament as it was, and
    with success when it is one. *)
Theorem recordResult_outcome now caller mid body t :
  let valid :=
    b_winner body ≠ "" ∧ is_Some (b_team1Score body)
    ∧ is_Some (b_team2Score body) in
  (¬ valid → recordResult now caller mid body t = inl ValidationFailed)
  ∧ (valid → organizer t ≠ caller →
     recordResult now caller mid body t = inl Forbidden)
  ∧ (valid → organizer t = caller →
     (recordResult now caller mid body t = inl NotFound
      ↔ ∀ m, m ∈ all_matches (brackets t) → matchId m ≠ mid)
     ∧ (recordResult now caller mid body t ≠ inl NotFound →
        (castObjectId (b_winner body) = None →
         recordResult now caller mid body t = inl ServerError
         ∧ step (OpRecordResult now caller mid body) t = t)
        ∧ (∀ w, castObjectId (b_winner body) = Some w →
                ∃ t', recordResult now caller mid body t = inr t'
                      ∧ step (OpRecordResult now caller mid body) t = t'))).
Proof.
  intros valid. subst valid. simpl. unfold recordResult.
  assert (Hnone : ¬ @is_Some Z None) by (by intros [? ?]).
  destruct (b_team1Score body) as [a1|];
    [|repeat split; intros; try done; exfalso; tauto].
  destruct (b_team2Score body) as [a2|];
    [|repeat split; intros; try done; exfalso; tauto].
  case_bool_decide as Hw;
    [repeat split; intros; try done; exfalso; tauto|].
  split; [intros []; eauto|].
  case_bool_decide as Ho.
  { split; [done|]. intros _ ?. done. }
  split; [done|]. intros _ _.
  destruct (update_brackets mid id (brackets t)) as [bs0|] eqn:Hu0.
  - assert (Hex : ¬ ∀ m, m ∈ all_matches (brackets t) → matchId m ≠ mid).
    { intros Hall.
      apply update_brackets_Some in Hu0
        as (pre & b & post & mpre & m & mpost & Hbs & Hms & Hid & _).
      apply (Hall m); [|done].
      rewrite Hbs, all_matches_app, all_matches_cons, Hms.
      rewrite !elem_of_app, elem_of_cons. auto. }
    destruct (castObjectId (b_winner body)) as [w|].
    + destruct (update_brackets mid (complete_match now w (mkScore a1 a2))
                  (brackets t)) as [bs|] eqn:Hu.
      * split; [split; [done|by intros ?]|].
        intros _. split; [done|]. intros w0 _. eauto.
      * by rewrite (update_brackets_None_any _ _ id _ Hu) in Hu0.
    + split; [split; [done|by intros ?]|].
      intros _. split; [done|]. by intros w0 ?.
  - split; [|done]. split; [|done].
    intros _. by eapply update_brackets_None.
Qed.

Lemma recordResult_outcome_witness :
  recordResult 50 "a" "R9M9" (mkResultBody "p1" (Some 1) (Some 0))
    three_bracket = inl Forbidden
  ∧ recordResult 50 "o" "R1M1" (mkResultBody "p1" (Some 1) (Some 0))
      three_bracket = inl ServerError
  ∧ ∃ t', recordResult 50 "o" "R1M1" (mkResultBody zed (Some 2) (Some 0))
            three_bracket = inr t'.
Proof.
  split; [|split].
  - apply (recordResult_outcome 50 "a" "R9M9"
             (mkResultBody "p1" (Some 1) (Some 0)) three_bracket).
    + simpl. split; [done|]. split; eauto.
    + done.
  - destruct (recordResult_outcome 50 "o" "R1M1"
                (mkResultBody "p1" (Some 1) (Some 0)) three_bracket)
      as (_ & _ & H).
    destruct H as [_ H].
    + simpl. split; [done|]. split; eauto.
    + reflexivity.
    + destruct H as [H _]; [by vm_compute|].
      apply H. reflexivity.
  - destruct (recordResult_outcome 50 "o" "R1M1"
                (mkResultBody zed (Some 2) (Some 0)) three_bracket)
      as (_ & _ & H).
    destruct H as [_ H].
    + simpl. split; [done|]. split; eauto.
    + reflexivity.
    + destruct H as [_ H]; [by vm_compute|].
      destruct (H zed) as (t' & Ht & _); [reflexivity|].
      exists t'. exact Ht.
Defined.

(** ** Reading the chat *)

Lemma js_slice_in_range {A} (l : list A) (a b : Z) :
  0 ≤ a ≤ b → b ≤ Z.of_nat (length l) →
  js_slice a b l = take (Z.to_nat (b - a)) (drop (Z.to_nat a) l).
Proof.
  intros Ha Hb. unfold js_slice.
  assert ((a <? 0) = false) as -> by (clock; lia).
  assert ((b <? 0) = false) as -> by (clock; lia).
  by rewrite !Z.min_l by lia.
Qed.

Lemma js_slice_negative_end {A} (l : list A) (b : Z) :
  b < 0 →
  js_slice 0 b l = take (Z.to_nat (Z.of_nat (length l) + b)) l.
Proof.
  intros Hb. unfold js_slice.
  change (0 <? 0) with false. cbv iota.
  assert ((b <? 0) = true) as -> by (clock; lia).
  rewrite Z.min_l by lia. change (Z.to_nat 0) with 0%nat. rewrite drop_0.
  apply (f_equal (λ k, take k l)). lia.
Qed.

(** X17: The pages of the chat, newest first.  For a limit of at least 1 and a
    page [P ≥ 1] that starts within the log, the page holds
    [min(limit, n - (P-1)*limit)] messages; its message [i] is the one
    [(P-1)*limit + i] places before the newest; and [hasMore] tells whether
    older messages remain. *)
Theorem getChatMessages_page limit page t :
  let L := default 50 limit in
  let P := default 1 page in
  let n := Z.of_nat (length (chat t)) in
  let r := getChatMessages limit page t in
  1 ≤ L → 1 ≤ P → (P - 1) * L ≤ n →
  Z.of_nat (length (cp_messages r)) = Z.min L (n - (P - 1) * L)
  ∧ (∀ i : nat,
       (i < length (cp_messages r))%nat →
       cp_messages r !! i
       = chat t !! Z.to_nat (n - 1 - (P - 1) * L - Z.of_nat i))
  ∧ (cp_hasMore r = true ↔ P * L < n)
  ∧ cp_current r = P.
Proof.
  intros L P n r HL HP Hn. subst r. unfold getChatMessages.
  fold L P n. cbn [cp_messages cp_hasMore cp_current].
  set (s := Z.max 0 (n - P * L)). set (e := n - (P - 1) * L).
  assert (0 ≤ s ≤ e ∧ e ≤ n) as [Hs He] by (subst s e; nia).
  rewrite js_slice_in_range by (fold n; lia).
  assert (Hlen : length (take (Z.to_nat (e - s)) (drop (Z.to_nat s) (chat t)))
                 = Z.to_nat (e - s)).
  { rewrite length_take, length_drop. subst n. lia. }
  rewrite length_reverse, Hlen.
  split; [subst s e; lia|]. split; [|split; [subst s; clock; lia|done]].
  intros i Hi.
  rewrite reverse_lookup by (rewrite Hlen; lia).
  rewrite Hlen, lookup_take_lt by lia.
  rewrite lookup_drop. f_equal. subst s e. lia.
Qed.

Lemma getChatMessages_page_witness :
  cp_messages (getChatMessages (Some 1) (Some 1) chat_one) !! 0%nat
  = chat chat_one !! 0%nat.
Proof.
  apply (getChatMessages_page (Some 1) (Some 1) chat_one);
    (simpl; lia).
Defined.

(** X18: A page past the end is not empty.  When the page starts [k] messages
    after the end of a log of [n] messages, the negative end index of the
    slice counts from the end of the array, and the page returned holds the
    [n - k] oldest messages, the newest of them first. *)
Theorem getChatMessages_past_end limit page t :
  let L := default 50 limit in
  let P := default 1 page in
  let n := Z.of_nat (length (chat t)) in
  1 ≤ L → n < (P - 1) * L →
  cp_messages (getChatMessages limit page t)
  = reverse (take (Z.to_nat (n - ((P - 1) * L - n))) (chat t)).
Proof.
  intros L P n HL Hn. unfold getChatMessages.
  fold L P n. cbn [cp_messages].
  rewrite Z.max_l by lia.
  rewrite js_slice_negative_end by lia. fold n.
  f_equal. apply (f_equal (λ k, take k (chat t))). lia.
Qed.

Lemma getChatMessages_past_end_witness :
  cp_messages
    (getChatMessages (Some 3) (Some 3)
       (set_chat
          [ mkChatMessage "m1" (Id "a") "alice" "one" 1 false;
            mkChatMessage "m2" (Id "a") "alice" "two" 2 false;
            mkChatMessage "m3" (Id "a") "alice" "three" 3 false;
            mkChatMessage "m4" (Id "a") "alice" "four" 4 false;
            mkChatMessage "m5" (Id "a") "alice" "five" 5 false ]
          chat_one))
  = [ mkChatMessage "m4" (Id "a") "alice" "four" 4 false;
      mkChatMessage "m3" (Id "a") "alice" "three" 3 false;
      mkChatMessage "m2" (Id "a") "alice" "two" 2 false;
      mkChatMessage "m1" (Id "a") "alice" "one" 1 false ].
Proof.
  rewrite getChatMessages_past_end; [reflexivity|simpl; lia..].
Defined.

Lemma getChatMessages_newest limit t l m :
  1 ≤ default 50 limit → chat t = l ++ [m] →
  head (cp_messages (getChatMessages limit None t)) = Some m.
Proof.
  intros HL Hc. unfold getChatMessages. cbn [cp_messages].
  change (default 1 None) with 1.
  assert (Hn : Z.of_nat (length (chat t)) = Z.of_nat (length l) + 1).
  { rewrite Hc, length_app. simpl. lia. }
  rewrite js_slice_in_range by lia.
  rewrite head_reverse, take_ge by (rewrite length_drop; lia).
  set (s := Z.to_nat _).
  assert (s ≤ length l)%nat by (subst s; lia).
  rewrite Hc, drop_app_le by done.
  apply last_snoc.
Qed.

(** X19: Who may write, and where the message shows.  A message of 1 to 500
    characters is refused with [Forbidden] when its author is neither in a
    roster entry nor the organizer; otherwise the post succeeds, and a read
    of page 1, with any limit of at least 1, returns that message first. *)
Theorem postChatMessage_then_read now newId u msg t limit :
  (1 ≤ String.length msg ≤ 500)%nat →
  let isRegistered := alreadyRegistered t u = true in
  let isOrganizer := organizer t = u_id u in
  (¬ isRegistered → ¬ isOrganizer →
   postChatMessage now newId u msg t = inl Forbidden)
  ∧ (isRegistered ∨ isOrganizer → 1 ≤ default 50 limit →
     ∃ t',
       postChatMessage now newId u msg t = inr t'
       ∧ head (cp_messages (getChatMessages limit None t'))
         = Some (mkChatMessage newId (Id (u_id u)) (u_username u) msg now
                   false)).
Proof.
  intros Hlen isRegistered isOrganizer. subst isRegistered isOrganizer.
  unfold postChatMessage.
  rewrite (bool_decide_eq_false_2 (String.length msg < 1)%nat) by lia.
  rewrite (bool_decide_eq_false_2 (500 < String.length msg)%nat) by lia.
  simpl. fold (alreadyRegistered t u).
  destruct (alreadyRegistered t u) eqn:Hr; simpl.
  - split; [done|]. intros _ Hl. eexists. split; [reflexivity|].
    by eapply getChatMessages_newest.
  - case_bool_decide as Ho; simpl.
    + split; [done|]. intros _ Hl. eexists. split; [reflexivity|].
      by eapply getChatMessages_newest.
    + split; [done|]. intros [?|?]; done.
Qed.

Lemma postChatMessage_then_read_witness :
  ∃ t',
    postChatMessage 8 "m2" olga "welcome" chat_one = inr t'
    ∧ head (cp_messages (getChatMessages None None t'))
      = Some (mkChatMessage "m2" (Id "o") "olga" "welcome" 8 false).
Proof.
  apply (postChatMessage_then_read 8 "m2" olga "welcome" chat_one None).
  - simpl. lia.
  - by right.
  - simpl. lia.
Defined.

(** ** Deleting a message *)

(** X20: The outcomes of a deletion.  It fails with [NotFound] when no message
    carries the id.  Otherwise the first message with the id decides: a
    caller who is neither its author nor the organizer gets [Forbidden], so
    a system message, which has no author, goes only by the organizer;
    the author or the organizer removes that message, the log gets one
    shorter, and, when the ids of the log are pairwise distinct, no message
    with the id is left. *)
Theorem deleteChatMessage_outcome caller mid t :
  ((∀ m, m ∈ chat t → msg_id m ≠ mid) →
   deleteChatMessage caller mid t = inl NotFound)
  ∧ (∀ i m,
       chat t !! i = Some m → msg_id m = mid →
       (∀ j m', (j < i)%nat → chat t !! j = Some m' → msg_id m' ≠ mid) →
       (msg_userId m ≠ Id caller → organizer t ≠ caller →
        deleteChatMessage caller mid t = inl Forbidden)
       ∧ (msg_userId m = Null → organizer t ≠ caller →
          deleteChatMessage caller mid t = inl Forbidden)
       ∧ (msg_userId m = Id caller ∨ organizer t = caller →
          deleteChatMessage caller mid t
          = inr (set_chat (delete i (chat t)) t)
          ∧ length (delete i (chat t)) = (length (chat t) - 1)%nat
          ∧ (NoDup (msg_id <$> chat t) →
             ∀ m', m' ∈ delete i (chat t) → msg_id m' ≠ mid))).
Proof.
  split.
  - intros Hall. unfold deleteChatMessage.
    destruct (findIndex _ _) as [i|] eqn:Hi; [|done].
    apply findIndex_Some in Hi as (m & Hm & Hid & _).
    apply bool_decide_eq_true in Hid.
    destruct (Hall m); [by eapply list_elem_of_lookup_2|done].
  - intros i m Hm Hid Hfirst.
    assert (Hfind : findIndex (λ m0, bool_decide (msg_id m0 = mid)) (chat t)
                    = Some i).
    { eapply findIndex_first; [exact Hm|by apply bool_decide_eq_true_2|].
      intros j y Hj Hy. apply bool_decide_eq_false_2. by eapply Hfirst. }
    assert (Hforbid : msg_userId m ≠ Id caller → organizer t ≠ caller →
                      deleteChatMessage caller mid t = inl Forbidden).
    { intros Ha Ho. unfold deleteChatMessage. rewrite Hfind, Hm.
      assert (isAuthor caller m = false) as ->.
      { destruct (isAuthor caller m) eqn:E; [|done].
        by apply isAuthor_spec in E. }
      by rewrite bool_decide_eq_false_2. }
    split; [exact Hforbid|]. split.
    { intros Hnull. apply Hforbid. by rewrite Hnull. }
    intros Hperm. split; [|split].
    + unfold deleteChatMessage. rewrite Hfind, Hm.
      destruct Hperm as [Ha|Ho].
      * by rewrite (proj2 (isAuthor_spec caller m) Ha).
      * rewrite (bool_decide_eq_true_2 _ Ho). simpl.
        by rewrite andb_false_r.
    + apply length_delete. eauto.
    + intros Hnd m'. rewrite delete_take_drop.
      rewrite <-(take_drop_middle _ _ _ Hm), fmap_app, fmap_cons in Hnd.
      apply NoDup_app in Hnd as (_ & Hdisj & Hnd).
      apply NoDup_cons in Hnd as [Hm' _].
      rewrite Hid in *.
      intros [Hin|Hin]%elem_of_app Heq.
      * apply (Hdisj mid); [|apply list_elem_of_here].
        rewrite <-Heq. by apply list_elem_of_fmap_2.
      * apply Hm'. rewrite <-Heq. by apply list_elem_of_fmap_2.
Qed.

Lemma deleteChatMessage_outcome_witness :
  deleteChatMessage "x" "m1" chat_one = inl Forbidden
  ∧ deleteChatMessage "o" "m1" chat_one = inr (set_chat [] chat_one).
Proof.
  split.
  - destruct (proj2 (deleteChatMessage_outcome "x" "m1" chat_one) 0%nat
                (mkChatMessage "m1" (Id "a") "alice" "hi" 7 false))
      as (H & _); [reflexivity|reflexivity|intros; lia|].
    apply H; intros [=].
  - destruct (proj2 (deleteChatMessage_outcome "o" "m1" chat_one) 0%nat
                (mkChatMessage "m1" (Id "a") "alice" "hi" 7 false))
      as (_ & _ & H); [reflexivity|reflexivity|intros; lia|].
    apply H. by right.
Defined.

(** ** Online users *)

Lemma elem_of_filteri_from {A} (keep : A → nat → bool) k (l : list A) x :
  x ∈ filteri_from keep k l
  ↔ ∃ i, l !! i = Some x ∧ keep x (k + i)%nat = true.
Proof.
  revert k. induction l as [|y l IH]; intros k; simpl.
  - split; [by intros ?%elem_of_nil|by intros (i & ? & _)].
  - destruct (keep y k) eqn:Hy.
    + rewrite elem_of_cons, IH. split.
      * intros [->|(i & Hi & Hk)].
        -- exists 0%nat. by rewrite Nat.add_0_r.
        -- exists (S i). split; [done|]. by rewrite Nat.add_succ_r.
      * intros ([|i] & Hi & Hk); simpl in Hi.
        -- left. congruence.
        -- right. exists i. split; [done|]. by rewrite Nat.add_succ_r in Hk.
    + rewrite IH. split.
      * intros (i & Hi & Hk). exists (S i). split; [done|].
        by rewrite Nat.add_succ_r.
      * intros ([|i] & Hi & Hk); simpl in Hi.
        -- rewrite Nat.add_0_r in Hk. congruence.
        -- exists i. split; [done|]. by rewrite Nat.add_succ_r in Hk.
Qed.

Lemma NoDup_filteri_from {A K} (key : A → K) (keep : A → nat → bool) k
    (l : list A) :
  (∀ i j x y, l !! i = Some x → l !! j = Some y →
              keep x (k + i)%nat = true → keep y (k + j)%nat = true →
              key x = key y → i = j) →
  NoDup (key <$> filteri_from keep k l).
Proof.
  revert k. induction l as [|z l IH]; intros k Hinj; simpl; [constructor|].
  assert (Htail : NoDup (key <$> filteri_from keep (S k) l)).
  { apply IH. intros i j x y Hi Hj Hx Hy Hk.
    assert (S i = S j) by
      (apply (Hinj (S i) (S j) x y); rewrite ?Nat.add_succ_r; done).
    lia. }
  destruct (keep z k) eqn:Hz; [|done].
  rewrite fmap_cons. apply NoDup_cons. split; [|done].
  intros (y & Hk & (j & Hj & Hy)%elem_of_filteri_from)%list_elem_of_fmap.
  assert (0 = S j)%nat; [|lia].
  apply (Hinj 0%nat (S j) z y); rewrite ?Nat.add_0_r, ?Nat.add_succ_r; done.
Qed.

Lemma findIndex_is_Some {A} (f : A → bool) (l : list A) x :
  x ∈ l → f x = true → ∃ i, findIndex f l = Some i.
Proof.
  intros Hx Hfx. destruct (findIndex f l) as [i|] eqn:Hi; [eauto|].
  by rewrite (findIndex_None _ _ Hi x Hx) in Hfx.
Qed.

Lemma uniqueOnlineUsers_ids l :
  NoDup (ou_id <$> uniqueOnlineUsers l)
  ∧ (∀ o, o ∈ ou_id <$> uniqueOnlineUsers l ↔ o ∈ ou_id <$> l)
  ∧ uniqueOnlineUsers l `sublist_of` l.
Proof.
  unfold uniqueOnlineUsers, filteri. split; [|split].
  - apply NoDup_filteri_from. simpl.
    intros i j x y _ _ Hx Hy Hk.
    apply bool_decide_eq_true in Hx, Hy. rewrite Hk in Hx. congruence.
  - intros o. rewrite !list_elem_of_fmap. split.
    + intros (x & -> & (i & Hi & _)%elem_of_filteri_from).
      exists x. split; [done|]. by eapply list_elem_of_lookup_2.
    + intros (x & -> & Hx).
      destruct (findIndex_is_Some (λ u, bool_decide (ou_id u = ou_id x)) l x)
        as (i & Hi); [done|by apply bool_decide_eq_true_2|].
      pose proof (findIndex_Some _ _ _ Hi) as (y & Hy & Hid & _).
      apply bool_decide_eq_true in Hid.
      exists y. split; [done|].
      apply elem_of_filteri_from. exists i. split; [done|].
      simpl. apply bool_decide_eq_true_2. by rewrite Hid.
  - generalize 0%nat.
    generalize (λ (user : OnlineUser) (index : nat),
                  bool_decide
                    (findIndex (λ u, bool_decide (ou_id u = ou_id user)) l
                     = Some index)).
    intros keep. induction l as [|x l' IH]; intros k; simpl; [done|].
    destruct (keep x k); [by apply sublist_skip|by apply sublist_cons].
Qed.

(** X21: The online list names each online user once.  The identifiers of the
    users returned are pairwise distinct; a user is returned exactly when
    some player of some roster entry is that user, still exists, and logged
    in less than five minutes before the request; and [count] is the length
    of the list. *)
Theorem getOnlineUsers_unique now populated :
  let r := getOnlineUsers now populated in
  NoDup (ou_id <$> r.1)
  ∧ (∀ o, o ∈ ou_id <$> r.1
          ↔ ∃ team u l,
              team ∈ populated ∧ Some u ∈ team ∧ pu_id u = o
              ∧ pu_lastLogin u = Some l ∧ now - 300000 < l)
  ∧ r.2 = length r.1.
Proof.
  unfold getOnlineUsers. cbn [fst snd].
  set (online := populated ≫= _).
  destruct (uniqueOnlineUsers_ids online) as (Hnd & Hids & _).
  split; [done|]. split; [|done].
  intros o. rewrite Hids. subst online.
  rewrite list_elem_of_fmap. split.
  - intros (x & -> & (team & (p & Hx & Hp)%list_elem_of_bind & Ht)
                      %list_elem_of_bind).
    unfold online_entry in Hx.
    destruct p as [u|]; [|by apply elem_of_nil in Hx].
    destruct (pu_lastLogin u) as [l|] eqn:Hl; [|by apply elem_of_nil in Hx].
    destruct (l >? now - 5 * 60 * 1000) eqn:Hrecent;
      [|by apply elem_of_nil in Hx].
    apply list_elem_of_singleton in Hx as ->. simpl.
    exists team, u, l. clock. repeat split; (done || lia).
  - intros (team & u & l & Ht & Hu & <- & Hl & Hrecent).
    exists (mkOnlineUser (pu_id u) (pu_username u) (display_name u)
              (pu_avatar u)).
    split; [done|].
    apply list_elem_of_bind. exists team. split; [|done].
    apply list_elem_of_bind. exists (Some u). split; [|done].
    unfold online_entry. rewrite Hl.
    assert ((l >? now - 5 * 60 * 1000) = true) as -> by (clock; lia).
    apply list_elem_of_here.
Qed.

(** ** Leaderboard of a game *)

Lemma StronglySorted_lookup_lt {A} (R : A → A → Prop) (l : list A) i j a b :
  StronglySorted R l → (i < j)%nat →
  l !! i = Some a → l !! j = Some b → R a b.
Proof.
  intros Hs. revert i j. induction Hs as [|x l Hs IH Hx]; intros i j Hij;
    [done|].
  destruct j as [|j]; [lia|]. destruct i as [|i]; simpl.
  - intros [= ->] Hb. by eapply Forall_lookup_1.
  - apply IH. lia.
Qed.

Lemma sorted_scope_lookup_le g users i j a b :
  (i ≤ j)%nat →
  sorted_scope g users !! i = Some a → sorted_scope g users !! j = Some b →
  row_key b ≤ row_key a.
Proof.
  intros Hij Ha Hb.
  destruct (decide (i = j)) as [->|Hne]; [by simplify_eq|].
  assert (Hs : StronglySorted (λ a b, row_key b ≤ row_key a)
                 (sorted_scope g users))
    by (unfold sorted_scope; destruct g; apply sort_desc_sorted).
  apply (StronglySorted_lookup_lt _ _ i j a b Hs); [lia|done..].
Qed.

Lemma lookup_mapi_Some {A B} (f : A → nat → B) (l : list A) i y :
  mapi f l !! i = Some y → ∃ x, l !! i = Some x ∧ y = f x i.
Proof.
  intros Hy. destruct (l !! i) as [x|] eqn:Hx.
  - rewrite (lookup_mapi _ _ _ _ Hx) in Hy. exists x. split; congruence.
  - apply lookup_ge_None in Hx. apply lookup_lt_Some in Hy.
    rewrite length_mapi in Hy. lia.
Qed.

(** X22: A page of the leaderboard of a game.  For a limit and a page of at
    least 1 the request is answered; the page holds at most [limit] rows;
    row [i] carries the rank [(page-1)*limit + i + 1] and is the row at
    that position of the scope sorted by descending score; down the page
    the scores do not increase; and [hasPrev] tells whether the page is
    after the first. *)
Theorem getGameLeaderboard_page users g limit page :
  let L := default 50 limit in
  let P := default 1 page in
  1 ≤ L → 1 ≤ P →
  ∃ rows pg,
    getGameLeaderboard users g limit page = Some (rows, pg)
    ∧ (length rows ≤ Z.to_nat L)%nat
    ∧ (∀ i row,
         rows !! i = Some row →
         lb_rank row = (P - 1) * L + Z.of_nat i + 1
         ∧ sorted_scope (Some g) users !! Z.to_nat (lb_rank row - 1)
           = Some (lb_row row))
    ∧ (∀ i j a b,
         (i ≤ j)%nat → rows !! i = Some a → rows !! j = Some b →
         row_key (lb_row b) ≤ row_key (lb_row a))
    ∧ (pg_hasPrev pg = true ↔ 1 < P)
    ∧ pg_current pg = P.
Proof.
  intros L P HL HP. unfold getGameLeaderboard. fold L P.
  assert (((P - 1) * L <? 0) || (L <=? 0) = false) as ->.
  { apply orb_false_iff. clock. nia. }
  eexists _, _. split; [reflexivity|].
  assert (Hrow : ∀ i row,
            mapi (λ r index,
                    mkLeaderboardRow r ((P - 1) * L + Z.of_nat index + 1))
                 (take (Z.to_nat L)
                    (drop (Z.to_nat ((P - 1) * L))
                       (sorted_scope (Some g) users))) !! i = Some row →
            lb_rank row = (P - 1) * L + Z.of_nat i + 1
            ∧ sorted_scope (Some g) users
                !! (Z.to_nat ((P - 1) * L) + i)%nat = Some (lb_row row)).
  { intros i row (r & Hr & ->)%lookup_mapi_Some. split; [done|].
    apply lookup_take_Some in Hr as [Hr _].
    by rewrite lookup_drop in Hr. }
  split; [rewrite length_mapi, length_take; lia|].
  split; [|split; [|split; [simpl; clock; lia|done]]].
  - intros i row Hi. destruct (Hrow i row Hi) as [Hrk Hs].
    split; [done|]. rewrite Hrk.
    replace (Z.to_nat _) with (Z.to_nat ((P - 1) * L) + i)%nat by nia.
    done.
  - intros i j a b Hij Ha Hb.
    destruct (Hrow i a Ha) as [_ Hsa]. destruct (Hrow j b Hb) as [_ Hsb].
    eapply sorted_scope_lookup_le; [|exact Hsa|exact Hsb]. lia.
Qed.

(** X23: Every row of the scope is on one page, with its position as rank: the
    row at position [k] (from 0) of the scope sorted by descending score is
    row [k mod limit] of page [k div limit + 1], with rank [k + 1]. *)
Theorem getGameLeaderboard_finds users g limit k r :
  let L := default 50 limit in
  1 ≤ L →
  sorted_scope (Some g) users !! k = Some r →
  ∃ rows pg,
    getGameLeaderboard users g limit (Some (Z.of_nat k `div` L + 1))
    = Some (rows, pg)
    ∧ rows !! Z.to_nat (Z.of_nat k `mod` L)
      = Some (mkLeaderboardRow r (Z.of_nat k + 1)).
Proof.
  intros L HL Hk. unfold getGameLeaderboard. fold L.
  cbn [default from_option]. unfold id.
  replace (Z.of_nat k `div` L + 1 - 1) with (Z.of_nat k `div` L) by lia.
  pose proof (Z.div_mod (Z.of_nat k) L ltac:(lia)) as Hdm.
  pose proof (Z.mod_pos_bound (Z.of_nat k) L ltac:(lia)) as Hmod.
  assert (0 ≤ Z.of_nat k `div` L) as Hdiv by (apply Z.div_pos; lia).
  assert ((Z.of_nat k `div` L * L <? 0) || (L <=? 0) = false) as ->.
  { apply orb_false_iff. clock. nia. }
  eexists _, _. split; [reflexivity|].
  erewrite lookup_mapi.
  - f_equal. f_equal. nia.
  - rewrite lookup_take_lt by lia. rewrite lookup_drop.
    rewrite <-Hk. f_equal. nia.
Qed.

(** ** Rank of a user against the sorted scope *)

Lemma length_filter_Permutation {A} (f : A → bool) (l l' : list A) :
  l ≡ₚ l' → length (List.filter f l) = length (List.filter f l').
Proof.
  induction 1 as [|x l l' _ IH|x y l|l1 l2 l3 _ IH1 _ IH2]; simpl.
  - done.
  - destruct (f x); simpl; by rewrite IH.
  - by destruct (f x), (f y).
  - by rewrite IH1.
Qed.

Lemma filter_fmap_list {A B} (f : B → bool) (g : A → B) (l : list A) :
  List.filter f (g <$> l) = g <$> List.filter (λ x, f (g x)) l.
Proof.
  induction l as [|x l IH]; csimpl; [done|].
  destruct (f (g x)); csimpl; by rewrite IH.
Qed.

Lemma filter_filter_list {A} (f g : A → bool) (l : list A) :
  List.filter f (List.filter g l) = List.filter (λ x, g x && f x) l.
Proof.
  induction l as [|x l IH]; simpl; [done|].
  destruct (g x); simpl; [|done]. destruct (f x); simpl; by rewrite IH.
Qed.

Lemma sorted_scope_overall users :
  sorted_scope None users
  ≡ₚ (λ u, mkRow u None) <$> List.filter isActive users.
Proof. unfold sorted_scope. apply sort_desc_Permutation. Qed.

Lemma usersAbove_rows users s :
  length (List.filter (rankQuery None s) users)
  = length (List.filter (λ r, row_key r >? s) (sorted_scope None users)).
Proof.
  rewrite (length_filter_Permutation _ _ _ (sorted_scope_overall users)).
  rewrite filter_fmap_list, length_fmap, filter_filter_list.
  done.
Qed.

Lemma sorted_desc_above (l : list Row) s :
  StronglySorted (λ a b, row_key b ≤ row_key a) l →
  ∀ i x, l !! i = Some x →
         (i < length (List.filter (λ r, row_key r >? s) l))%nat
         ↔ s < row_key x.
Proof.
  induction 1 as [|y l Hs IH Hy]; intros i x Hi; [done|].
  simpl. destruct (row_key y >? s) eqn:Hys; clock; simpl.
  - destruct i as [|i]; simpl in Hi.
    + injection Hi as <-. split; [done|lia].
    + rewrite <-(IH i x Hi). lia.
  - assert (Hnone : length (List.filter (λ r, row_key r >? s) l) = 0%nat).
    { destruct l as [|z l]; [done|].
      destruct (length _) eqn:Hlen; [done|].
      assert (s < row_key z) by (apply (IH 0%nat z eq_refl); lia).
      apply Forall_cons in Hy as [Hz _]. lia. }
    rewrite Hnone. split; [lia|]. intros Hx. exfalso.
    destruct i as [|i]; simpl in Hi.
    + injection Hi as <-. lia.
    + pose proof (Forall_lookup_1 _ _ _ _ Hy Hi) as Hle. simpl in Hle. lia.
Qed.

Lemma getUserRank_flag users uid g r q :
  getUserRank users uid g = inr r → q ∈ nearbyPlayers r →
  isCurrentUser q = bool_decide (u_id (row_user (player q)) = uid).
Proof.
  unfold getUserRank.
  destruct (List.find _ users) as [user|]; [|done].
  intros [= <-]. cbn [nearbyPlayers].
  intros (i & Hi)%list_elem_of_lookup_1.
  by apply lookup_mapi_Some in Hi as (x & _ & ->).
Qed.

Lemma getUserRank_sorted_row users uid user :
  List.find (λ u, bool_decide (u_id u = uid)) users = Some user →
  isActive user = true →
  ∃ r p,
    getUserRank users uid None = inr r
    ∧ 1 ≤ userRank r
    ∧ sorted_scope None users !! Z.to_nat (userRank r - 1) = Some p
    ∧ totalScore (row_user p) = totalScore user
    ∧ ((∀ u1 u2, u1 ∈ users → u2 ∈ users →
                 isActive u1 = true → isActive u2 = true →
                 totalScore u1 = totalScore u2 → u1 = u2) →
       row_user p = user).
Proof.
  intros Hfind Hact.
  destruct (getUserRank_overall users uid user Hfind)
    as (r & Hr & Hrank & _ & _).
  pose proof (find_some _ _ Hfind) as [Huser _].
  apply list_elem_of_In in Huser.
  set (s := totalScore user) in *.
  set (rows := sorted_scope None users) in *.
  assert (Hsorted : StronglySorted (λ a b, row_key b ≤ row_key a) rows)
    by apply sort_desc_sorted.
  set (k := length (List.filter (λ r, row_key r >? s) rows)).
  assert (Hk : userRank r = Z.of_nat k + 1).
  { rewrite Hrank. subst k rows. rewrite <-usersAbove_rows.
    unfold rankQuery. lia. }
  assert (Hin : mkRow user None ∈ rows).
  { subst rows. rewrite sorted_scope_overall.
    apply (list_elem_of_fmap_2 (λ u, mkRow u None)).
    apply list_elem_of_In, filter_In.
    split; [by apply list_elem_of_In|done]. }
  apply list_elem_of_lookup_1 in Hin as (j & Hj).
  assert (Hjk : (k ≤ j)%nat).
  { destruct (decide (j < k)%nat) as [Hlt|]; [|lia].
    apply (sorted_desc_above rows s Hsorted j _ Hj) in Hlt.
    unfold row_key in Hlt. simpl in Hlt. subst s. lia. }
  destruct (rows !! k) as [p|] eqn:Hp.
  2: { apply lookup_ge_None in Hp. apply lookup_lt_Some in Hj. lia. }
  assert (Hkey : row_key p = s).
  { assert (¬ s < row_key p).
    { rewrite <-(sorted_desc_above rows s Hsorted k p Hp). lia. }
    assert (Hle : row_key (mkRow user None) ≤ row_key p).
    { destruct (decide (k = j)) as [->|]; [by simplify_eq|].
      apply (StronglySorted_lookup_lt _ _ k j p _ Hsorted); [lia|done..]. }
    change (row_key (mkRow user None)) with s in Hle. lia. }
  assert (Hp' : p ∈ (λ u, mkRow u None) <$> List.filter isActive users).
  { rewrite <-sorted_scope_overall. by eapply list_elem_of_lookup_2. }
  apply list_elem_of_fmap in Hp' as (u & -> & Hu).
  apply list_elem_of_In, filter_In in Hu as [Hu Hua].
  apply list_elem_of_In in Hu.
  exists r, (mkRow u None). split; [done|]. split; [lia|].
  split; [rewrite Hk; rewrite <-Hp; f_equal; lia|].
  split; [exact Hkey|].
  intros Hdistinct. simpl. by apply Hdistinct.
Qed.

(** X24: The rank counted agrees with the sorted leaderboard.  For an active
    user, in the overall scope, the row at position [userRank] of the scope
    sorted by descending score has the total score of the user; it is among
    the nearby players, with [userRank] as its rank; and when no two active
    users have the same total score it is the row of the user, flagged
    [isCurrentUser]. *)
Theorem getUserRank_matches_sorted users uid user :
  List.find (λ u, bool_decide (u_id u = uid)) users = Some user →
  isActive user = true →
  ∃ r p,
    getUserRank users uid None = inr r
    ∧ 1 ≤ userRank r
    ∧ sorted_scope None users !! Z.to_nat (userRank r - 1) = Some p
    ∧ totalScore (row_user p) = totalScore user
    ∧ (∃ q, q ∈ nearbyPlayers r ∧ rank q = userRank r ∧ player q = p)
    ∧ ((∀ u1 u2, u1 ∈ users → u2 ∈ users →
                 isActive u1 = true → isActive u2 = true →
                 totalScore u1 = totalScore u2 → u1 = u2) →
       row_user p = user
       ∧ ∃ q, q ∈ nearbyPlayers r ∧ rank q = userRank r
              ∧ player q = p ∧ isCurrentUser q = true).
Proof.
  intros Hfind Hact.
  destruct (getUserRank_sorted_row users uid user Hfind Hact)
    as (r & p & Hr & Hpos & Hp & Hscore & Hd).
  destruct (getUserRank_overall users uid user Hfind)
    as (r' & Hr' & _ & Hrows & Hlab).
  assert (r' = r) as -> by congruence.
  pose proof (find_some _ _ Hfind) as [_ Huid].
  apply bool_decide_eq_true in Huid.
  set (k := Z.to_nat (userRank r - 1)) in *.
  set (skip := Z.to_nat (Z.max 0 (userRank r - 6))) in *.
  assert (Hq : (player <$> nearbyPlayers r) !! (k - skip)%nat = Some p).
  { rewrite Hrows, lookup_take_lt by (subst k skip; lia).
    rewrite lookup_drop. rewrite <-Hp. f_equal. subst k skip. lia. }
  rewrite list_lookup_fmap in Hq.
  destruct (nearbyPlayers r !! (k - skip)%nat) as [q|] eqn:Hq'; [|done].
  injection Hq as Hqp.
  assert (Hqin : q ∈ nearbyPlayers r) by (by eapply list_elem_of_lookup_2).
  assert (Hqrank : rank q = userRank r).
  { destruct (Hlab _ _ Hq') as [-> _]. subst k skip. lia. }
  exists r, p. repeat (split; [done|]).
  split; [by exists q|].
  intros Hdistinct. specialize (Hd Hdistinct). split; [done|].
  exists q. repeat (split; [done|]).
  rewrite (getUserRank_flag _ _ _ _ q Hr Hqin).
  apply bool_decide_eq_true_2. by rewrite Hqp, Hd.
Qed.

Lemma getUserRank_matches_sorted_witness :
  ∃ r p,
    getUserRank twelve_users "u07" None = inr r
    ∧ sorted_scope None twelve_users !! Z.to_nat (userRank r - 1) = Some p
    ∧ totalScore (row_user p) = 60.
Proof.
  destruct (getUserRank_matches_sorted twelve_users "u07"
              (ranked_user "u07" 60))
    as (r & p & Hr & _ & Hp & Hs & _); [reflexivity..|].
  exists r, p. split; [exact Hr|]. split; [exact Hp|exact Hs].
Defined.

Lemma getGameLeaderboard_page_witness :
  ∃ rows pg,
    getGameLeaderboard game_users "valorant" (Some 1) (Some 2)
    = Some (rows, pg)
    ∧ (length rows ≤ 1)%nat.
Proof.
  destruct (getGameLeaderboard_page game_users "valorant" (Some 1) (Some 2))
    as (rows & pg & Hr & Hl & _); [simpl; lia..|].
  exists rows, pg. split; [exact Hr|exact Hl].
Defined.

Lemma getGameLeaderboard_finds_witness :
  ∃ rows pg,
    getGameLeaderboard game_users "valorant" (Some 1) (Some 2)
    = Some (rows, pg)
    ∧ rows !! 0%nat
      = Some (mkLeaderboardRow
                (mkRow (mkUser "g2" "g2" true 0
                          [mkGameStat "valorant" 10; mkGameStat "cs2" 500] [])
                       (Some (mkGameStat "valorant" 10)))
                2).
Proof.
  apply (getGameLeaderboard_finds game_users "valorant" (Some 1) 1%nat).
  - simpl. lia.
  - reflexivity.
Defined.

Lemma getOnlineUsers_unique_witness :
  NoDup (ou_id <$> (getOnlineUsers 1000000 populated_sample).1)
  ∧ (getOnlineUsers 1000000 populated_sample).1
    = [mkOnlineUser "a" "alice" "Alice" None].
Proof.
  split; [|reflexivity].
  apply (getOnlineUsers_unique 1000000 populated_sample).
Defined.

(** ** The batch update of the ranks *)

Lemma StronglySorted_fmap_elem {A B} (f : A → B) (R1 : relation A)
    (R2 : relation B) (l : list A) :
  (∀ x y, x ∈ l → y ∈ l → R1 x y → R2 (f x) (f y)) →
  StronglySorted R1 l → StronglySorted R2 (f <$> l).
Proof.
  intros Hf Hs. induction Hs as [|x l Hs IH Hx]; csimpl; constructor.
  - apply IH. intros a b Ha Hb. apply Hf; by apply list_elem_of_further.
  - rewrite Forall_fmap. apply Forall_forall. intros y Hy. simpl.
    apply Hf; [apply list_elem_of_here|by apply list_elem_of_further|].
    by eapply (proj1 (Forall_forall _ _) Hx).
Qed.

Lemma mapi_fmap {A B C} (f : B → nat → C) (g : A → B) (l : list A) :
  mapi f (g <$> l) = mapi (λ x i, f (g x) i) l.
Proof.
  apply list_eq. intros i. destruct (l !! i) as [x|] eqn:Hx.
  - rewrite (lookup_mapi _ l _ _ Hx).
    apply lookup_mapi. by rewrite list_lookup_fmap, Hx.
  - apply lookup_ge_None in Hx.
    rewrite !(proj2 (lookup_ge_None _ _));
      rewrite ?length_mapi, ?length_fmap; done.
Qed.

Lemma snd_mapi_rank {A B} (f : A → B) (l : list A) :
  snd <$> mapi (λ x i, (f x, Z.of_nat i + 1)) l
  = (λ i, Z.of_nat i + 1) <$> seq 0 (length l).
Proof.
  apply list_eq. intros i. rewrite !list_lookup_fmap.
  destruct (l !! i) as [x|] eqn:Hx.
  - rewrite (lookup_mapi _ l _ _ Hx). simpl.
    rewrite lookup_seq_lt by (by eapply lookup_lt_Some). done.
  - apply lookup_ge_None in Hx.
    rewrite (proj2 (lookup_ge_None _ _)) by (by rewrite length_mapi).
    by rewrite lookup_seq_ge.
Qed.

Lemma sorted_scope_overall_stat users p :
  p ∈ sorted_scope None users →
  row_stat p = None ∧ row_user p ∈ users ∧ isActive (row_user p) = true.
Proof.
  rewrite sorted_scope_overall.
  intros (u & -> & Hu)%list_elem_of_fmap.
  apply list_elem_of_In, filter_In in Hu as [Hu Ha].
  by apply list_elem_of_In in Hu.
Qed.

(** X25: What the rank update writes in the overall scope: the active users, each
    once, in an order of non-increasing total score, numbered from 1 with no
    gap; and for each game the rows of that game are numbered from 1 with no
    gap. *)
Theorem overallRankOps_enumerates users :
  (∃ us,
     us ≡ₚ List.filter isActive users
     ∧ StronglySorted (λ a b, totalScore b ≤ totalScore a) us
     ∧ overallRankOps users = mapi (λ u i, (u_id u, Z.of_nat i + 1)) us)
  ∧ snd <$> overallRankOps users
    = (λ i, Z.of_nat i + 1)
        <$> seq 0 (length (List.filter isActive users))
  ∧ ∀ g, snd <$> gameRankOps users g
         = (λ i, Z.of_nat i + 1)
             <$> seq 0 (length (sorted_scope (Some g) users)).
Proof.
  split; [|split].
  - exists (row_user <$> sorted_scope None users). split; [|split].
    + rewrite sorted_scope_overall, <-list_fmap_compose.
      by rewrite list_fmap_id.
    + eapply StronglySorted_fmap_elem; [|apply (sort_desc_sorted _)].
      intros x y (Hx & _)%sorted_scope_overall_stat
                 (Hy & _)%sorted_scope_overall_stat.
      unfold row_key. by rewrite Hx, Hy.
    + unfold overallRankOps. by rewrite mapi_fmap.
  - unfold overallRankOps. rewrite snd_mapi_rank.
    by rewrite (Permutation_length (sorted_scope_overall users)), length_fmap.
  - intros g. unfold gameRankOps.
    rewrite <-(snd_mapi_rank (λ r, (u_id (row_user r), g))).
    apply list_eq. intros i. rewrite !list_lookup_fmap.
    destruct (sorted_scope (Some g) users !! i) as [x|] eqn:Hx.
    + by rewrite !(lookup_mapi _ _ _ _ Hx).
    + apply lookup_ge_None in Hx.
      rewrite !(proj2 (lookup_ge_None _ _)); rewrite ?length_mapi; done.
Qed.

(** X26: The rank stored is the rank shown: when no two active users have the
    same total score, the rank the update writes for an active user is the
    [userRank] the rank query reports for it. *)
Theorem overallRankOps_agrees users uid user :
  List.find (λ u, bool_decide (u_id u = uid)) users = Some user →
  isActive user = true →
  (∀ u1 u2, u1 ∈ users → u2 ∈ users →
            isActive u1 = true → isActive u2 = true →
            totalScore u1 = totalScore u2 → u1 = u2) →
  ∃ r,
    getUserRank users uid None = inr r
    ∧ overallRankOps users !! Z.to_nat (userRank r - 1)
      = Some (uid, userRank r).
Proof.
  intros Hfind Hact Hdistinct.
  destruct (getUserRank_sorted_row users uid user Hfind Hact)
    as (r & p & Hr & Hpos & Hp & _ & Hd).
  pose proof (Hd Hdistinct) as Hpu.
  pose proof (find_some _ _ Hfind) as [_ Huid].
  apply bool_decide_eq_true in Huid.
  exists r. split; [done|].
  unfold overallRankOps. rewrite (lookup_mapi _ _ _ _ Hp).
  rewrite Hpu, Huid. do 2 f_equal. lia.
Qed.

Lemma overallRankOps_agrees_witness :
  ∃ r,
    getUserRank twelve_users "u07" None = inr r
    ∧ overallRankOps twelve_users !! Z.to_nat (userRank r - 1)
      = Some ("u07", userRank r).
Proof.
  apply (overallRankOps_agrees twelve_users "u07" (ranked_user "u07" 60));
    [reflexivity|reflexivity|].
  intros u1 u2 H1 H2 _ _.
  repeat (apply elem_of_cons in H1 as [->|H1]);
    [..|by apply elem_of_nil in H1];
    repeat (apply elem_of_cons in H2 as [->|H2]);
    try (by apply elem_of_nil in H2); try done; by intros [=].
Defined.

(** ** Achievements *)

(** X27: An achievement is unlocked once.  Adding an achievement whose id is
    already held changes nothing, whatever the other fields of the two
    records, so the first unlock and its time stay; adding one whose id is
    not held appends it.  Hence adding it a second time changes nothing; the
    achievements held before stay in place; the achievement, or the one that
    already had its id, is in the list afterwards; and a list with pairwise
    distinct ids keeps them distinct. *)
Theorem addAchievement_once a l :
  (ach_id a ∈ ach_id <$> l → addAchievement a l = l)
  ∧ (ach_id a ∉ ach_id <$> l → addAchievement a l = l ++ [a])
  ∧ addAchievement a (addAchievement a l) = addAchievement a l
  ∧ l `prefix_of` addAchievement a l
  ∧ ach_id a ∈ ach_id <$> addAchievement a l
  ∧ (NoDup (ach_id <$> l) → NoDup (ach_id <$> addAchievement a l)).
Proof.
  unfold addAchievement.
  destruct (existsb _ l) eqn:He.
  - assert (Hin : ach_id a ∈ ach_id <$> l).
    { apply existsb_exists in He as (x & Hx & Hid).
      apply bool_decide_eq_true in Hid. rewrite <-Hid.
      by apply list_elem_of_fmap_2, list_elem_of_In. }
    rewrite He. repeat split; done.
  - assert (Hout : ach_id a ∉ ach_id <$> l).
    { intros (x & Hid & Hx)%list_elem_of_fmap.
      pose proof (proj1 (existsb_false _ _) He x Hx) as Hf.
      by apply bool_decide_eq_false in Hf. }
    assert (existsb (λ ach, bool_decide (ach_id ach = ach_id a)) (l ++ [a])
            = true) as ->.
    { rewrite existsb_app. simpl.
      by rewrite (bool_decide_eq_true_2 _ eq_refl), orb_true_r. }
    split; [done|]. split; [done|].
    split; [done|]. split; [by apply prefix_app_r|].
    rewrite fmap_app. split.
    { apply elem_of_app. right. apply list_elem_of_here. }
    intros Hnd. apply NoDup_app. split; [done|].
    split; [|apply NoDup_singleton].
    intros o Ho1 Ho2. apply list_elem_of_singleton in Ho2. by subst o.
Qed.

Lemma addAchievement_once_witness :
  addAchievement first_blood_again [first_blood] = [first_blood]
  ∧ addAchievement first_blood [] = [first_blood]
  ∧ NoDup (ach_id <$> addAchievement first_blood [first_blood]).
Proof.
  split; [|split].
  - destruct (addAchievement_once first_blood_again [first_blood])
      as (Hheld & _).
    apply Hheld. apply list_elem_of_here.
  - destruct (addAchievement_once first_blood []) as (_ & Hnew & _).
    apply Hnew. apply not_elem_of_nil.
  - destruct (addAchievement_once first_blood [first_blood])
      as (_ & _ & _ & _ & _ & Hnd).
    apply Hnd. apply NoDup_singleton.
Defined.
